(** * allennlp/steps/dataloader.py: the Tango data loaders

    A shallow embedding of the four loaders of [dataloader.py] and of the
    deprecated [__len__] of their base class.

    Python objects are modelled as follows.
    - Integers are unbounded: [Z].
    - A list object lives in a heap ([gmap loc (list Instance)]); a loader
      holds the reference it was given, so that aliasing and in-place
      mutation ([random.shuffle]) are visible.  A reference that names no
      object reads as the empty list; Python has no such reference, and the
      theorems take the loader's reference to name a list.
    - A generator is a suspended frame: a value of the loader's [Gen] type.
      [__next__] resumes it once and either yields, stops, raises, or runs
      out of the fuel that bounds the loops of the generator bodies.
    - The global random generator is a state [G] with one primitive
      [getrand]; [randbelow] reduces its answer modulo the bound, so every
      in-range answer is possible and no other.
    - [len(a) / b] is a true division.  It is modelled in [Q], exactly; the
      IEEE double that CPython computes has the same floor and ceiling
      whenever both operands are below 2^53. *)

From stdpp Require Import base gmap list strings.
From Stdlib Require Import ZArith QArith Qround Lia.

Unset Default Proof Using.
Close Scope Q_scope.
Open Scope Z_scope.
Open Scope nat_scope.

(** ** Exceptions, results, and the outcome of resuming a generator *)

(** The exceptions that the code can raise, and [InvalidConfig], the kind the
    specification names for rejected constructor arguments. *)
Inductive exn : Type :=
| ZeroDivisionError
| ValueError
| IndexError
| NotImplementedError
| InvalidConfig.

Inductive result (A : Type) : Type :=
| Ok (a : A)
| Raise (e : exn).
Arguments Ok {A} a.
Arguments Raise {A} e.

Inductive Outcome (B G W : Type) : Type :=
| Yield (b : B) (g : G) (w : W)
| StopIteration (g : G) (w : W)
| Raised (e : exn) (g : G) (w : W)
| OutOfFuel.
Arguments Yield {B G W} b g w.
Arguments StopIteration {B G W} g w.
Arguments Raised {B G W} e g w.
Arguments OutOfFuel {B G W}.

(** The world an outcome leaves behind, when there is one. *)
Definition outcome_world {B G W} (o : Outcome B G W) : option W :=
  match o with
  | Yield _ _ w | StopIteration _ w | Raised _ _ w => Some w
  | OutOfFuel => None
  end.

Definition loc : Type := nat.

(** [r] is the floor, or the ceiling, of the real quotient [a / b] for a
    positive [b]. *)
Definition is_floor (r a b : Z) : Prop := (r * b ≤ a < (r + 1) * b)%Z.
Definition is_ceil (r a b : Z) : Prop := ((r - 1) * b < a ≤ r * b)%Z.

Definition deprecation_warning : string :=
  "This function is deprecated because it's unclear which length you get back. Please call TangoDataLoader.num_batches_per_epoch() instead.".

(** A linear congruential generator, used where a concrete random source is
    needed to run the definitions. *)
Definition lcg (g : nat) : nat * nat := (g, (g * 5 + 3) mod 17).

(** ** [random.shuffle] *)

Section Shuffle.
Context {A G : Type} (getrand : G → nat * G).

(** [Random._randbelow]: some number below [n]. *)
Definition randbelow (g : G) (n : nat) : nat * G :=
  let '(r, g') := getrand g in (r mod n, g').

(** [x[i], x[j] = x[j], x[i]]: the right-hand side is read first, then
    [x[i]] and [x[j]] are assigned in that order.  An index out of range is
    an [IndexError] in Python; [randbelow] never produces one. *)
Definition swap (x : list A) (i j : nat) : list A :=
  match x !! i, x !! j with
  | Some a, Some b => <[j := a]> (<[i := b]> x)
  | _, _ => x
  end.

(** [for i in reversed(range(1, len(x))): j = randbelow(i + 1); swap] *)
Fixpoint shuffle_loop (i : nat) (g : G) (x : list A) : list A * G :=
  match i with
  | O => (x, g)
  | S i' => let '(j, g') := randbelow g (S i) in
            shuffle_loop i' g' (swap x i j)
  end.

Definition random_shuffle (g : G) (x : list A) : list A * G :=
  shuffle_loop (length x - 1) g x.
End Shuffle.

(** ** [more_itertools.chunked], as a function on lists

    [chunked(it, n)] is [iter(partial(take, n, it), [])]: it takes [n]
    elements at a time until a take comes back empty.  The generators below
    run it one chunk at a time; this is the list of all its chunks. *)
Fixpoint chunks_fuel {A} (fuel n : nat) (l : list A) : list (list A) :=
  match fuel with
  | O => []
  | S fuel' =>
      match take n l with
      | [] => []
      | c => c :: chunks_fuel fuel' n (drop n l)
      end
  end.

Definition chunks {A} (n : nat) (l : list A) : list (list A) :=
  chunks_fuel (length l) n l.

(** ** The loaders *)

Section Dataloader.
Context {Instance TensorDict G : Type}.
Context (allennlp_collate : list Instance → TensorDict).
Context (getrand : G → nat * G).

(** *** [TangoDataLoader]: the interface

    The two abstract methods are the fields [num_batches_per_epoch] and
    [__iter__]/[__next__].  [W] is the part of the world the loader reads
    and writes.  [__iter__] makes a generator object and runs nothing,
    as a generator function does. *)
Record TangoDataLoader (W : Type) : Type := {
  Gen : Type;
  num_batches_per_epoch : W → result (option Z);
  __iter__ : Gen;
  __next__ : nat → Gen → W → Outcome TensorDict Gen W
}.
Arguments Gen {W} _.
Arguments num_batches_per_epoch {W} _ _.
Arguments __iter__ {W} _.
Arguments __next__ {W} _ _ _ _.

(** [TangoDataLoader.__len__]: logs the warning, then delegates. *)
Definition __len__ {W} (self : TangoDataLoader W) (log : list string) (w : W)
  : list string * result (option Z) :=
  (log ++ [deprecation_warning], num_batches_per_epoch self w).

(** *** Consumers *)

(** [list(loader_iterator)]: resume until the generator stops or raises.
    The result is the batches, the exception if one ended the iteration,
    and the world left behind. *)
Fixpoint to_list {W} (L : TangoDataLoader W) (fuel : nat) (g : Gen L) (w : W)
  : option (list TensorDict * option exn * W) :=
  match fuel with
  | O => None
  | S fuel' =>
      match __next__ L fuel' g w with
      | Yield b g' w' =>
          match to_list L fuel' g' w' with
          | Some (bs, e, w'') => Some (b :: bs, e, w'')
          | None => None
          end
      | StopIteration _ w' => Some ([], None, w')
      | Raised e _ w' => Some ([], Some e, w')
      | OutOfFuel => None
      end
  end.

(** [list(islice(it, k))]: resume at most [k] times, then abandon the
    generator where it is.  The result also has the generator. *)
Fixpoint pull {W} (L : TangoDataLoader W) (fuel k : nat) (g : Gen L) (w : W)
  : option (list TensorDict * option exn * Gen L * W) :=
  match k with
  | O => Some ([], None, g, w)
  | S k' =>
      match __next__ L fuel g w with
      | Yield b g' w' =>
          match pull L fuel k' g' w' with
          | Some (bs, e, g'', w'') => Some (b :: bs, e, g'', w'')
          | None => None
          end
      | StopIteration g' w' => Some ([], None, g', w')
      | Raised e g' w' => Some ([], Some e, g', w')
      | OutOfFuel => None
      end
  end.

(** [k] epochs, one after the other: [[list(loader) for _ in range(k)]]. *)
Fixpoint epochs {W} (L : TangoDataLoader W) (fuel k : nat) (w : W)
  : option (list (list TensorDict * option exn) * W) :=
  match k with
  | O => Some ([], w)
  | S k' =>
      match to_list L fuel (__iter__ L) w with
      | Some (bs, e, w') =>
          match epochs L fuel k' w' with
          | Some (rest, w'') => Some ((bs, e) :: rest, w'')
          | None => None
          end
      | None => None
      end
  end.

(** More fuel never changes the outcome of a resumption that had enough. *)
Definition fuel_monotone {W} (L : TangoDataLoader W) : Prop :=
  ∀ n m g w, n ≤ m → __next__ L n g w ≠ OutOfFuel →
             __next__ L m g w = __next__ L n g w.

(** *** The world of the loaders that hold instances *)
Record World : Type := mkWorld {
  heap : gmap loc (list Instance);
  rng : G
}.

(** [list(xs)]: a new list object with the elements of [xs]. *)
Definition list_copy (xs : loc) (w : World) : loc * World :=
  let l := fresh (dom (heap w)) in
  (l, mkWorld (<[l := heap w !!! xs]> (heap w)) (rng w)).

(** [random.shuffle(xs)]: reorders the list object [xs] in place. *)
Definition shuffle_in_place (xs : loc) (w : World) : World :=
  let '(x', g') := random_shuffle getrand (rng w) (heap w !!! xs) in
  mkWorld (<[xs := x']> (heap w)) g'.

(** *** [BatchSizeDataLoader] *)
Section BatchSize.
Context (instances : loc) (batch_size : Z) (drop_last shuffle : bool).

(** [len(self.instances) / self.batch_size] is a true division: it raises
    for a zero divisor, and its quotient is taken here as the exact
    rational. *)
Definition BatchSize_num_batches_per_epoch (w : World) : result (option Z) :=
  if (batch_size =? 0)%Z then Raise ZeroDivisionError
  else
    let batch_count :=
      (inject_Z (Z.of_nat (length (heap w !!! instances))) / inject_Z batch_size)%Q in
    if drop_last then Ok (Some (Qfloor batch_count))
    else Ok (Some (Qceiling batch_count)).

(** The frame of the generator: not yet started; or suspended in the
    [for] loop over [chunked(instances, batch_size)], whose list iterator
    is at [pos] in the list object [lst]; or finished. *)
Inductive BatchSizeGen : Type :=
| BS_NotStarted
| BS_Chunking (lst : loc) (pos : nat)
| BS_Finished.

(** [not self.drop_last or len(batch) >= self.batch_size] *)
Definition BatchSize_keeps (batch : list Instance) : bool :=
  negb drop_last || (batch_size <=? Z.of_nat (length batch))%Z.

(** The groups that one epoch over the order [l] passes to the collator
    (see [BatchSize_to_list]). *)
Definition BatchSize_groups (l : list Instance) : list (list Instance) :=
  filter (λ batch, BatchSize_keeps batch) (chunks (Z.to_nat batch_size) l).

(** The [for batch in chunked(...)] loop, from the point where the next
    chunk is requested. [islice] refuses a negative count. *)
Fixpoint BatchSize_loop (fuel : nat) (lst : loc) (pos : nat) (w : World)
  : Outcome TensorDict BatchSizeGen World :=
  match fuel with
  | O => OutOfFuel
  | S fuel' =>
      if (batch_size <? 0)%Z then Raised ValueError BS_Finished w
      else
        let batch := take (Z.to_nat batch_size) (drop pos (heap w !!! lst)) in
        match batch with
        | [] => StopIteration BS_Finished w
        | _ =>
            let pos' := pos + length batch in
            if BatchSize_keeps batch
            then Yield (allennlp_collate batch) (BS_Chunking lst pos') w
            else BatchSize_loop fuel' lst pos' w
        end
  end.

Definition BatchSize_next (fuel : nat) (g : BatchSizeGen) (w : World)
  : Outcome TensorDict BatchSizeGen World :=
  match g with
  | BS_NotStarted =>
      if shuffle then
        let '(lst, w1) := list_copy instances w in
        let w2 := shuffle_in_place lst w1 in
        BatchSize_loop fuel lst 0 w2
      else BatchSize_loop fuel instances 0 w
  | BS_Chunking lst pos => BatchSize_loop fuel lst pos w
  | BS_Finished => StopIteration BS_Finished w
  end.

Definition BatchSizeDataLoader : TangoDataLoader World := {|
  Gen := BatchSizeGen;
  num_batches_per_epoch := BatchSize_num_batches_per_epoch;
  __iter__ := BS_NotStarted;
  __next__ := BatchSize_next
|}.

(** The order in which an epoch started in [w] goes through the
    instances, the world it leaves and the list object it goes through
    (see [BatchSize_to_list] and [BatchSize_next_start]). *)
Definition BatchSize_epoch_world (w : World) : World :=
  if shuffle then
    shuffle_in_place (list_copy instances w).1 (list_copy instances w).2
  else w.

Definition BatchSize_epoch_list (w : World) : loc :=
  if shuffle then (list_copy instances w).1 else instances.

Definition BatchSize_epoch_order (w : World) : list Instance :=
  if shuffle then (random_shuffle getrand (rng w) (heap w !!! instances)).1
  else heap w !!! instances.
End BatchSize.

(** [BatchSizeDataLoader.__init__] stores its arguments. *)
Definition BatchSizeDataLoader_init (instances : loc) (batch_size : Z)
    (drop_last shuffle : bool) : result (TangoDataLoader World) :=
  Ok (BatchSizeDataLoader instances batch_size drop_last shuffle).

(** *** [SamplerDataLoader]

    The batch sampler is an external collaborator: a count and a sequence
    of index groups for a sequence of instances. *)
Record BatchSampler : Type := {
  get_num_batches : list Instance → Z;
  get_batch_indices : list Instance → list (list Z)
}.

(** [xs[i]]: a negative index counts from the end. *)
Definition getitem (xs : list Instance) (i : Z) : result Instance :=
  let n := Z.of_nat (length xs) in
  let i' := if (i <? 0)%Z then (i + n)%Z else i in
  if (i' <? 0)%Z then Raise IndexError
  else match xs !! Z.to_nat i' with
       | Some x => Ok x
       | None => Raise IndexError
       end.

(** [[xs[i] for i in batch_indices]] *)
Fixpoint gather (xs : list Instance) (batch_indices : list Z)
  : result (list Instance) :=
  match batch_indices with
  | [] => Ok []
  | i :: rest =>
      match getitem xs i with
      | Raise e => Raise e
      | Ok x =>
          match gather xs rest with
          | Raise e => Raise e
          | Ok batch => Ok (x :: batch)
          end
      end
  end.

Section Sampler.
Context (instances : loc) (batch_sampler : BatchSampler).

Definition Sampler_num_batches_per_epoch (w : World) : result (option Z) :=
  Ok (Some (get_num_batches batch_sampler (heap w !!! instances))).

Inductive SamplerGen : Type :=
| SP_NotStarted
| SP_Groups (remaining : list (list Z))
| SP_Finished.

Definition Sampler_loop (remaining : list (list Z)) (w : World)
  : Outcome TensorDict SamplerGen World :=
  match remaining with
  | [] => StopIteration SP_Finished w
  | batch_indices :: rest =>
      match gather (heap w !!! instances) batch_indices with
      | Raise e => Raised e SP_Finished w
      | Ok batch => Yield (allennlp_collate batch) (SP_Groups rest) w
      end
  end.

Definition Sampler_next (fuel : nat) (g : SamplerGen) (w : World)
  : Outcome TensorDict SamplerGen World :=
  match fuel with
  | O => OutOfFuel
  | S _ =>
      match g with
      | SP_NotStarted =>
          Sampler_loop (get_batch_indices batch_sampler (heap w !!! instances)) w
      | SP_Groups remaining => Sampler_loop remaining w
      | SP_Finished => StopIteration SP_Finished w
      end
  end.

Definition SamplerDataLoader : TangoDataLoader World := {|
  Gen := SamplerGen;
  num_batches_per_epoch := Sampler_num_batches_per_epoch;
  __iter__ := SP_NotStarted;
  __next__ := Sampler_next
|}.
End Sampler.

(** *** [BatchesPerEpochDataLoader]

    The object has one mutable field, [self.iter], the cursor into the
    inner loader.  Its world is the inner loader's world and that field. *)
Section BatchesPerEpoch.
Context {W : Type} (inner : TangoDataLoader W) (batches_per_epoch : Z).

Definition BatchesPerEpoch_num_batches_per_epoch (w : W * Gen inner)
  : result (option Z) :=
  Ok (Some batches_per_epoch).

(** Suspended at the [yield], [batches_yielded] not yet incremented. *)
Inductive BatchesPerEpochGen : Type :=
| BPE_NotStarted
| BPE_Yielded (batches_yielded : Z)
| BPE_Finished.

(** The [while] loop, from its test. *)
Fixpoint BatchesPerEpoch_loop (fuel : nat) (batches_yielded : Z)
    (w : W * Gen inner) : Outcome TensorDict BatchesPerEpochGen (W * Gen inner) :=
  match fuel with
  | O => OutOfFuel
  | S fuel' =>
      if (batches_yielded <? batches_per_epoch)%Z then
        match __next__ inner fuel' w.2 w.1 with
        | Yield b it w' => Yield b (BPE_Yielded batches_yielded) (w', it)
        | StopIteration _ w' =>
            BatchesPerEpoch_loop fuel' batches_yielded (w', __iter__ inner)
        | Raised e it w' => Raised e BPE_Finished (w', it)
        | OutOfFuel => OutOfFuel
        end
      else StopIteration BPE_Finished w
  end.

(** The generator [g] is about to run the loop test with [y] batches
    yielded. *)
Definition resumes_at (g : BatchesPerEpochGen) (y : Z) : Prop :=
  (g = BPE_NotStarted ∧ y = 0%Z) ∨ g = BPE_Yielded (y - 1)%Z.

Definition BatchesPerEpoch_next (fuel : nat) (g : BatchesPerEpochGen)
    (w : W * Gen inner) : Outcome TensorDict BatchesPerEpochGen (W * Gen inner) :=
  match g with
  | BPE_NotStarted => BatchesPerEpoch_loop fuel 0%Z w
  | BPE_Yielded batches_yielded =>
      BatchesPerEpoch_loop fuel (batches_yielded + 1)%Z w
  | BPE_Finished => StopIteration BPE_Finished w
  end.

Definition BatchesPerEpochDataLoader : TangoDataLoader (W * Gen inner) := {|
  Gen := BatchesPerEpochGen;
  num_batches_per_epoch := BatchesPerEpoch_num_batches_per_epoch;
  __iter__ := BPE_NotStarted;
  __next__ := BatchesPerEpoch_next
|}.

(** [__init__]: [self.iter = iter(inner)] makes the cursor. *)
Definition BatchesPerEpochDataLoader_init (w : W)
  : result (TangoDataLoader (W * Gen inner) * (W * Gen inner)) :=
  Ok (BatchesPerEpochDataLoader, (w, __iter__ inner)).
End BatchesPerEpoch.

(** *** [MaxBatchesDataLoader] *)
Section MaxBatches.
Context {W : Type} (inner : TangoDataLoader W) (max_batches_per_epoch : Z).

Definition MaxBatches_num_batches_per_epoch (w : W) : result (option Z) :=
  match num_batches_per_epoch inner w with
  | Raise e => Raise e
  | Ok None => Ok None
  | Ok (Some batches) => Ok (Some (Z.min max_batches_per_epoch batches))
  end.

(** Suspended at the [yield]: the iterator under [enumerate] and the
    index [enumerate] gives next. *)
Inductive MaxBatchesGen : Type :=
| MB_NotStarted
| MB_Enumerating (it : Gen inner) (i : Z)
| MB_Finished.

(** One turn of the [for] loop: [enumerate] takes the next element of
    the inner iterator, then the body tests its index. *)
Definition MaxBatches_loop (fuel : nat) (it : Gen inner) (i : Z) (w : W)
  : Outcome TensorDict MaxBatchesGen W :=
  match __next__ inner fuel it w with
  | Yield batch it' w' =>
      if (i >=? max_batches_per_epoch)%Z then StopIteration MB_Finished w'
      else Yield batch (MB_Enumerating it' (i + 1)%Z) w'
  | StopIteration _ w' => StopIteration MB_Finished w'
  | Raised e _ w' => Raised e MB_Finished w'
  | OutOfFuel => OutOfFuel
  end.

Definition MaxBatches_next (fuel : nat) (g : MaxBatchesGen) (w : W)
  : Outcome TensorDict MaxBatchesGen W :=
  match fuel with
  | O => OutOfFuel
  | S fuel' =>
      match g with
      | MB_NotStarted => MaxBatches_loop fuel' (__iter__ inner) 0%Z w
      | MB_Enumerating it i => MaxBatches_loop fuel' it i w
      | MB_Finished => StopIteration MB_Finished w
      end
  end.

Definition MaxBatchesDataLoader : TangoDataLoader W := {|
  Gen := MaxBatchesGen;
  num_batches_per_epoch := MaxBatches_num_batches_per_epoch;
  __iter__ := MB_NotStarted;
  __next__ := MaxBatches_next
|}.

Definition MaxBatchesDataLoader_init : result (TangoDataLoader W) :=
  Ok MaxBatchesDataLoader.
End MaxBatches.

End Dataloader.

Arguments Gen {TensorDict W} _.
Arguments num_batches_per_epoch {TensorDict W} _ _.
Arguments __iter__ {TensorDict W} _.
Arguments __next__ {TensorDict W} _ _ _ _.

Arguments TangoDataLoader TensorDict W : clear implicits.
Arguments MB_NotStarted {TensorDict W inner}.
Arguments MB_Enumerating {TensorDict W inner} it i.
Arguments MB_Finished {TensorDict W inner}.

(** ** A concrete setting, to run the definitions

    Instances are numbers, the collator is the identity (a batch is the group
    it was made from), the random source is [lcg], and the one list object of
    the heap, at reference 0, holds the instances. *)
Definition ex_world (l : list nat) : World (Instance := nat) (G := nat) :=
  mkWorld {[ 0 := l ]} 1.

Definition ex_BatchSize (batch_size : Z) (drop_last shuffle : bool)
  : TangoDataLoader (list nat) World :=
  BatchSizeDataLoader (λ batch : list nat, batch) lcg 0 batch_size drop_last shuffle.

(** A loader of some other subclass, which does not know its length and
    has an empty epoch. *)
Definition ex_unknown_length : TangoDataLoader (list nat) unit := {|
  Gen := unit;
  num_batches_per_epoch := λ _, Ok None;
  __iter__ := tt;
  __next__ := λ _ _ w, StopIteration tt w
|}.

(** Two batch samplers: one that gives an index twice, a negative index and
    an empty group, and one that gives an index out of range for three
    instances. *)
Definition ex_sampler : BatchSampler (Instance := nat) := {|
  get_num_batches := λ _, 3%Z;
  get_batch_indices := λ _, [[0; -1]; []; [1; 1]]%Z
|}.

Definition ex_sampler_out_of_range : BatchSampler (Instance := nat) := {|
  get_num_batches := λ _, 3%Z;
  get_batch_indices := λ _, [[0]; [3]; [1]]%Z
|}.

(** ** The endless repetition of an epoch

    [cycle E c k] is the [k] elements from position [c] on of the sequence
    that repeats [E] without end. *)
Fixpoint cycle {A} (E : list A) (c k : nat) : list A :=
  match k with
  | O => []
  | S k' =>
      match E !! (c mod length E) with
      | Some x => x :: cycle E (S c) k'
      | None => []
      end
  end.

(** The generator of an unshuffled fixed-size chunking with the groups [gs]
    from which [c] batches were taken in all, over any number of its
    epochs: it is new, or it is in the list after the groups of its epoch
    that it has yielded. *)
Definition BatchSize_cursor_after {Instance} (instances : loc)
    (gs : list (list Instance)) (c : nat) : BatchSizeGen :=
  match c with
  | O => BS_NotStarted
  | S c' => BS_Chunking instances (length (concat (take (S (c' mod length gs)) gs)))
  end.

(** ** Theory *)

(** *** [random.shuffle] permutes *)

Section ShuffleTheory.
Context {A G : Type} (getrand : G → nat * G).
Implicit Types x : list A.

Lemma insert_Permutation x i a b :
  x !! i = Some a → a :: <[i := b]> x ≡ₚ b :: x.
Proof.
  intros Hi.
  assert (Hlt : i < length x) by (eapply lookup_lt_Some; eauto).
  rewrite insert_take_drop by done.
  rewrite <- (take_drop_middle x i a Hi) at 3.
  rewrite !Permutation_middle.
  apply Permutation_app_head, Permutation_swap.
Qed.

Lemma swap_Permutation x i j : swap x i j ≡ₚ x.
Proof.
  unfold swap.
  destruct (x !! i) as [a|] eqn:Hi; [|done].
  destruct (x !! j) as [b|] eqn:Hj; [|done].
  destruct (decide (i = j)) as [->|Hne].
  - assert (a = b) by congruence; subst b.
    rewrite (list_insert_id x j a Hi). by rewrite (list_insert_id x j a Hi).
  - apply (Permutation_cons_inv (a := b)).
    rewrite (insert_Permutation (<[i := b]> x) j b a).
    + apply insert_Permutation. done.
    + rewrite list_lookup_insert_ne by done. done.
Qed.

Lemma shuffle_loop_Permutation i g x : (shuffle_loop getrand i g x).1 ≡ₚ x.
Proof.
  revert g x. induction i as [|i IH]; intros g x; simpl; [done|].
  destruct (randbelow getrand g (S (S i))) as [j g'].
  rewrite IH. apply swap_Permutation.
Qed.

Lemma random_shuffle_Permutation g x : (random_shuffle getrand g x).1 ≡ₚ x.
Proof. apply shuffle_loop_Permutation. Qed.
End ShuffleTheory.

(** *** The chunks of [more_itertools.chunked] *)

Section ChunksTheory.
Context {A : Type} (n : nat) (Hn : 0 < n).
Implicit Types l : list A.

Lemma chunks_fuel_enough f1 f2 l :
  length l ≤ f1 → length l ≤ f2 → chunks_fuel f1 n l = chunks_fuel f2 n l.
Proof.
  revert f2 l. induction f1 as [|f1 IH]; intros f2 l H1 H2.
  - destruct l; [|simpl in H1; lia]. destruct f2; [done|]. simpl.
    by rewrite take_nil.
  - destruct f2 as [|f2].
    { destruct l; [|simpl in H2; lia]. simpl. by rewrite take_nil. }
    simpl. destruct (take n l) as [|a c] eqn:Htake; [done|].
    f_equal. assert (length (take n l) = S (length c)) by (by rewrite Htake).
    rewrite length_take in *.
    apply IH; rewrite length_drop; lia.
Qed.

Lemma chunks_nil : chunks n (@nil A) = [].
Proof. done. Qed.

Lemma chunks_unfold l :
  l ≠ [] → chunks n l = take n l :: chunks n (drop n l).
Proof.
  intros Hl. unfold chunks.
  destruct l as [|a l]; [done|]. cbn [length chunks_fuel].
  assert (Ht : take n (a :: l) = a :: take (pred n) l)
    by (clear -Hn; destruct n; [lia|done]).
  rewrite Ht. f_equal.
  apply chunks_fuel_enough; rewrite length_drop; simpl; lia.
Qed.

(** Induction along the chunks. *)
Lemma chunks_ind (P : list A → list (list A) → Prop) :
  P [] [] →
  (∀ l, l ≠ [] → P (drop n l) (chunks n (drop n l)) →
        P l (take n l :: chunks n (drop n l))) →
  ∀ l, P l (chunks n l).
Proof.
  intros Hnil Hcons l.
  remember (length l) as k eqn:Hk. revert l Hk.
  induction k as [k IH] using lt_wf_ind. intros l ->.
  destruct (decide (l = [])) as [->|Hl]; [done|].
  rewrite chunks_unfold by done. apply Hcons; [done|].
  apply (IH (length (drop n l))); [|done].
  rewrite length_drop. destruct l; [done|simpl; lia].
Qed.

Lemma concat_chunks l : concat (chunks n l) = l.
Proof.
  apply (chunks_ind (λ l cs, concat cs = l)); [done|].
  intros l' _ IH. simpl. rewrite IH. apply take_drop.
Qed.

(** The number of chunks is the ceiling of [length l / n]. *)
Lemma length_chunks_ceil l :
  length (chunks n l) * n < length l + n ∧ length l ≤ length (chunks n l) * n.
Proof.
  apply (chunks_ind (λ l cs, length cs * n < length l + n ∧ length l ≤ length cs * n)).
  - simpl. lia.
  - intros l' Hl'.
    assert (0 < length l') by (destruct l'; simpl; [done|lia]).
    destruct (decide (n ≤ length l')).
    + rewrite length_drop. simpl. lia.
    + rewrite drop_ge, chunks_nil by lia. simpl. lia.
Qed.

Lemma Forall_chunks_length l :
  Forall (λ c, 0 < length c ≤ n) (chunks n l).
Proof.
  apply (chunks_ind (λ l cs, Forall (λ c, 0 < length c ≤ n) cs)); [done|].
  intros l' Hl' IH. constructor; [|done].
  rewrite length_take. destruct l'; [done|simpl; lia].
Qed.

(** What is left after a chunk was taken. *)
Lemma drop_length_take l : drop (length (take n l)) l = drop n l.
Proof.
  rewrite length_take. destruct (decide (n ≤ length l)).
  - by rewrite Nat.min_l.
  - rewrite Nat.min_r by lia. rewrite !drop_ge; [done|lia|lia].
Qed.

(** The full chunks: their number is the floor of [length l / n]. *)
Lemma full_chunks l :
  let full := filter (λ c : list A, n ≤ length c) (chunks n l) in
  Forall (λ c, length c = n) full ∧
  length full * n ≤ length l < length full * n + n.
Proof.
  apply (chunks_ind (λ l cs,
    let full := filter (λ c : list A, n ≤ length c) cs in
    Forall (λ c, length c = n) full ∧
    length full * n ≤ length l < length full * n + n)).
  - simpl. split; [constructor|lia].
  - intros l' Hl'. rewrite length_drop. cbn zeta. intros [IH1 IH2].
    destruct (decide (n ≤ length l')) as [Hle|Hgt].
    + rewrite filter_cons_True by (rewrite length_take; lia).
      split.
      * constructor; [rewrite length_take; lia|done].
      * simpl. lia.
    + rewrite filter_cons_False by (rewrite length_take; lia).
      rewrite drop_ge, chunks_nil by lia. simpl.
      split; [constructor|lia].
Qed.
End ChunksTheory.

(** *** Floor and ceiling of a true division *)

Lemma Qfloor_div (a b : Z) : Qfloor (inject_Z a / inject_Z b) = (a / b)%Z.
Proof. symmetry. apply Zdiv_Qdiv. Qed.

Lemma Qceiling_div (a b : Z) :
  Qceiling (inject_Z a / inject_Z b) = (- ((- a) / b))%Z.
Proof.
  unfold Qceiling. f_equal. rewrite Zdiv_Qdiv. apply Qfloor_comp.
  rewrite inject_Z_opp. unfold Qdiv. ring.
Qed.

Lemma is_floor_div (a b : Z) : (0 < b)%Z → is_floor (a / b) a b.
Proof.
  intros Hb. unfold is_floor.
  pose proof (Z.div_mod a b ltac:(lia)). pose proof (Z.mod_pos_bound a b Hb). nia.
Qed.

Lemma is_ceil_div (a b : Z) : (0 < b)%Z → is_ceil (- ((- a) / b)) a b.
Proof.
  intros Hb. unfold is_ceil.
  pose proof (Z.div_mod (- a) b ltac:(lia)).
  pose proof (Z.mod_pos_bound (- a) b Hb). nia.
Qed.

Lemma is_floor_unique (r1 r2 a b : Z) :
  (0 < b)%Z → is_floor r1 a b → is_floor r2 a b → r1 = r2.
Proof. unfold is_floor. nia. Qed.

Lemma is_ceil_unique (r1 r2 a b : Z) :
  (0 < b)%Z → is_ceil r1 a b → is_ceil r2 a b → r1 = r2.
Proof. unfold is_ceil. nia. Qed.

(** *** Consumers and fuel *)

Section ConsumerTheory.
Context {TensorDict W : Type} (L : TangoDataLoader TensorDict W).
Context (Hmono : fuel_monotone L).

Lemma pull_S f k g w :
  pull L f (S k) g w =
    match __next__ L f g w with
    | Yield b g' w' =>
        match pull L f k g' w' with
        | Some (bs, e, g'', w'') => Some (b :: bs, e, g'', w'')
        | None => None
        end
    | StopIteration g' w' => Some ([], None, g', w')
    | Raised e g' w' => Some ([], Some e, g', w')
    | OutOfFuel => None
    end.
Proof. done. Qed.

Lemma to_list_S f g w :
  to_list L (S f) g w =
    match __next__ L f g w with
    | Yield b g' w' =>
        match to_list L f g' w' with
        | Some (bs, e, w'') => Some (b :: bs, e, w'')
        | None => None
        end
    | StopIteration _ w' => Some ([], None, w')
    | Raised e _ w' => Some ([], Some e, w')
    | OutOfFuel => None
    end.
Proof. done. Qed.

Lemma to_list_mono n m g w r :
  n ≤ m → to_list L n g w = Some r → to_list L m g w = Some r.
Proof.
  revert m g w r. induction n as [|n IH]; intros m g w r Hle; [done|].
  destruct m as [|m]; [lia|]. simpl.
  destruct (__next__ L n g w) as [b g' w'| | |] eqn:Hn; try done;
    rewrite (Hmono n m g w) by (first [lia | congruence]); rewrite Hn; try done.
  destruct (to_list L n g' w') as [[[bs e] w'']|] eqn:Hrec; [|done].
  rewrite (IH m g' w' _ ltac:(lia) Hrec). done.
Qed.

Lemma pull_mono n m k g w r :
  n ≤ m → pull L n k g w = Some r → pull L m k g w = Some r.
Proof.
  intros Hle. revert g w r. induction k as [|k IH]; intros g w r; [done|].
  simpl.
  destruct (__next__ L n g w) as [b g' w'| | |] eqn:Hn; try done;
    rewrite (Hmono n m g w) by (first [lia | congruence]); rewrite Hn; try done.
  destruct (pull L n k g' w') as [[[[bs e] g''] w'']|] eqn:Hrec; [|done].
  rewrite (IH g' w' _ Hrec). done.
Qed.
End ConsumerTheory.

(** *** [BatchSizeDataLoader] *)

Section BatchSizeTheory.
Context {Instance TensorDict G : Type}.
Context (allennlp_collate : list Instance → TensorDict).
Context (getrand : G → nat * G).
Context (instances : loc) (batch_size : Z) (drop_last shuffle : bool).

Local Abbreviation BS :=
  (BatchSizeDataLoader allennlp_collate getrand instances batch_size drop_last shuffle).
Local Abbreviation loop := (BatchSize_loop allennlp_collate batch_size drop_last).
Local Abbreviation keeps := (BatchSize_keeps batch_size drop_last).
Local Abbreviation groups := (BatchSize_groups batch_size drop_last).
Local Abbreviation n := (Z.to_nat batch_size).
Local Abbreviation epoch_order := (BatchSize_epoch_order getrand instances shuffle).
Local Abbreviation epoch_world := (BatchSize_epoch_world getrand instances shuffle).
Implicit Types (w : World (Instance:=Instance) (G:=G)) (l : list Instance).

Lemma BatchSize_loop_mono f1 f2 lst pos w :
  f1 ≤ f2 → loop f1 lst pos w ≠ OutOfFuel → loop f2 lst pos w = loop f1 lst pos w.
Proof.
  revert f2 pos. induction f1 as [|f1 IH]; intros f2 pos Hle; [done|].
  destruct f2 as [|f2]; [lia|]. simpl.
  destruct (batch_size <? 0)%Z; [done|].
  destruct (take n (drop pos (heap w !!! lst))); [done|].
  destruct (keeps _); [done|].
  apply IH. lia.
Qed.

Lemma BatchSize_fuel_monotone : fuel_monotone BS.
Proof.
  intros f1 f2 g w Hle.
  destruct g as [|lst pos|]; cbn [__next__ BatchSizeDataLoader BatchSize_next].
  - destruct shuffle; [destruct (list_copy instances w)|];
      by apply BatchSize_loop_mono.
  - by apply BatchSize_loop_mono.
  - done.
Qed.

(** The loop leaves the world as it is. *)
Lemma BatchSize_loop_world f lst pos w w' :
  outcome_world (loop f lst pos w) = Some w' → w' = w.
Proof.
  revert pos. induction f as [|f IH]; intros pos; [done|]. simpl.
  destruct (batch_size <? 0)%Z; [by intros [= <-]|].
  destruct (take n (drop pos (heap w !!! lst))); [by intros [= <-]|].
  destruct (keeps _); [by intros [= <-]|]. apply IH.
Qed.

Section Positive.
Context (Hpos : (0 < batch_size)%Z).

Lemma BatchSize_groups_nil : groups (@nil Instance) = [].
Proof. done. Qed.

Lemma BatchSize_groups_unfold l :
  l ≠ [] →
  groups l = if keeps (take n l) then take n l :: groups (drop n l) else [].
Proof.
  intros Hl. unfold BatchSize_groups.
  rewrite chunks_unfold by (done || lia).
  destruct (keeps (take n l)) eqn:Hk.
  - by rewrite filter_cons_True by (by rewrite Hk).
  - rewrite filter_cons_False by (rewrite Hk; simpl; tauto).
    unfold BatchSize_keeps in Hk.
    apply orb_false_iff in Hk as [_ Hk]. apply Z.leb_gt in Hk.
    rewrite length_take in Hk.
    rewrite drop_ge by lia. done.
Qed.

(** One resumption of the loop: the next group that is kept, if any. *)
Lemma BatchSize_loop_spec f lst pos w :
  2 ≤ f →
  loop f lst pos w =
    match groups (drop pos (heap w !!! lst)) with
    | [] => StopIteration BS_Finished w
    | batch :: _ =>
        Yield (allennlp_collate batch) (BS_Chunking lst (pos + length batch)) w
    end.
Proof.
  intros Hf. destruct f as [|[|f]]; [lia|lia|].
  set (rest := drop pos (heap w !!! lst)).
  cbn [BatchSize_loop]. fold rest.
  assert ((batch_size <? 0)%Z = false) as -> by lia.
  destruct (decide (rest = [])) as [Hr|Hr].
  { rewrite Hr, take_nil. done. }
  rewrite (BatchSize_groups_unfold rest Hr).
  destruct (take n rest) as [|a c] eqn:Htake.
  { destruct rest; [done|]. destruct n eqn:?; [lia|done]. }
  rewrite <- Htake.
  destruct (keeps (take n rest)) eqn:Hk; [done|].
  unfold BatchSize_keeps in Hk.
  apply orb_false_iff in Hk as [_ Hk]. apply Z.leb_gt in Hk.
  rewrite length_take in Hk.
  rewrite <- drop_drop. fold rest.
  assert (Hlen : length rest ≤ n) by lia.
  rewrite (take_ge rest n Hlen), drop_all, take_nil. done.
Qed.

(** Consuming a generator that is at [pos] in the list object [lst]. *)
Lemma BatchSize_to_list_chunking lst w pos f :
  length (drop pos (heap w !!! lst)) + 3 ≤ f →
  to_list BS f (BS_Chunking lst pos) w =
    Some (allennlp_collate <$> groups (drop pos (heap w !!! lst)), None, w).
Proof.
  remember (length (drop pos (heap w !!! lst))) as k eqn:Hk.
  revert pos f Hk. induction k as [k IH] using lt_wf_ind. intros pos f -> Hf.
  destruct f as [|f]; [lia|].
  cbn [to_list __next__ BatchSizeDataLoader BatchSize_next].
  rewrite BatchSize_loop_spec by lia.
  set (rest := drop pos (heap w !!! lst)) in *.
  destruct (decide (rest = [])) as [Hr|Hr].
  { rewrite Hr. done. }
  rewrite (BatchSize_groups_unfold rest Hr).
  destruct (keeps (take n rest)) eqn:Hkeep; [|done].
  assert (Hdrop : drop (pos + length (take n rest)) (heap w !!! lst) = drop n rest).
  { rewrite <- drop_drop. fold rest. apply drop_length_take; lia. }
  assert (Hlt : length (drop n rest) < length rest).
  { rewrite length_drop. destruct rest; [done|simpl; lia]. }
  rewrite (IH (length (drop n rest)) Hlt (pos + length (take n rest)) f);
    rewrite ?Hdrop; [done|done|lia].
Qed.

(** Consuming a whole epoch. *)
Lemma BatchSize_to_list w f :
  length (heap w !!! instances) + 3 ≤ f →
  to_list BS f BS_NotStarted w =
    Some (allennlp_collate <$> groups (epoch_order w), None, epoch_world w).
Proof.
  intros Hf.
  assert (Hsh : shuffle = true ∨ shuffle = false) by (destruct shuffle; auto).
  destruct Hsh as [Hsh|Hsh].
  - set (lst := (list_copy instances w).1).
    set (w2 := shuffle_in_place getrand lst (list_copy instances w).2).
    assert (Hw2 : heap w2 !!! lst =
                  (random_shuffle getrand (rng w) (heap w !!! instances)).1).
    { unfold w2, shuffle_in_place, lst, list_copy. cbn [fst snd heap rng].
      rewrite lookup_total_insert_eq.
      destruct (random_shuffle _ _ _). cbn [heap].
      by rewrite lookup_total_insert_eq. }
    assert (Hstart : ∀ k, to_list BS k BS_NotStarted w
                          = to_list BS k (BS_Chunking lst 0) w2).
    { intros [|k]; [done|].
      cbn [to_list __next__ BatchSizeDataLoader BatchSize_next].
      rewrite Hsh. unfold w2, lst. by destruct (list_copy instances w). }
    assert (Horder : epoch_order w = heap w2 !!! lst)
      by (unfold BatchSize_epoch_order; by rewrite Hsh, Hw2).
    assert (Hworld : epoch_world w = w2)
      by (unfold BatchSize_epoch_world; by rewrite Hsh).
    rewrite Hstart, BatchSize_to_list_chunking, Horder, Hworld.
    + by rewrite drop_0.
    + rewrite drop_0, Hw2, random_shuffle_Permutation. done.
  - assert (Hstart : ∀ k, to_list BS k BS_NotStarted w
                          = to_list BS k (BS_Chunking instances 0) w).
    { intros [|k]; [done|].
      cbn [to_list __next__ BatchSizeDataLoader BatchSize_next].
      by rewrite Hsh. }
    assert (Horder : epoch_order w = heap w !!! instances)
      by (unfold BatchSize_epoch_order; by rewrite Hsh).
    assert (Hworld : epoch_world w = w)
      by (unfold BatchSize_epoch_world; by rewrite Hsh).
    rewrite Hstart, BatchSize_to_list_chunking, Horder, Hworld;
      by rewrite drop_0.
Qed.

Lemma BatchSize_epoch_order_Permutation w :
  epoch_order w ≡ₚ heap w !!! instances.
Proof.
  unfold BatchSize_epoch_order. destruct shuffle; [|done].
  apply random_shuffle_Permutation.
Qed.

(** With [drop_last] off every chunk is kept. *)
Lemma BatchSize_groups_keep_all l :
  drop_last = false → groups l = chunks n l.
Proof.
  intros Hdl. unfold BatchSize_groups, BatchSize_keeps. rewrite Hdl. simpl.
  induction (chunks n l) as [|c cs IH]; [done|].
  by rewrite filter_cons_True, IH.
Qed.

(** With [drop_last] on the full chunks are kept. *)
Lemma BatchSize_groups_full l :
  drop_last = true →
  groups l = filter (λ c : list Instance, n ≤ length c) (chunks n l).
Proof.
  intros Hdl. unfold BatchSize_groups, BatchSize_keeps. rewrite Hdl. simpl.
  induction (chunks n l) as [|c cs IH]; [done|].
  destruct (decide (n ≤ length c)).
  - rewrite !filter_cons_True, IH; [done|done|].
    apply Is_true_true, Z.leb_le. lia.
  - rewrite !filter_cons_False, IH; [done|done|].
    intros H%Is_true_true%Z.leb_le. lia.
Qed.
End Positive.

(** An epoch leaves every list object that existed before as it was. *)
Lemma list_copy_fresh w : heap w !! (list_copy instances w).1 = None.
Proof.
  unfold list_copy. cbn [fst].
  apply (not_elem_of_dom (D := gset loc)), is_fresh.
Qed.

Lemma BatchSize_start_heap w x :
  is_Some (heap w !! x) →
  heap (shuffle_in_place getrand (list_copy instances w).1 (list_copy instances w).2) !! x
  = heap w !! x.
Proof.
  intros Hl. pose proof (list_copy_fresh w) as Hfresh.
  assert (x ≠ (list_copy instances w).1) as Hne.
  { intros ->. rewrite Hfresh in Hl. by destruct Hl. }
  unfold shuffle_in_place. destruct (random_shuffle _ _ _) as [xs' g'].
  cbn [heap]. rewrite lookup_insert_ne by done.
  unfold list_copy. cbn [snd heap]. by rewrite lookup_insert_ne.
Qed.

Lemma BatchSize_next_frame f g w w' x :
  outcome_world (BatchSize_next allennlp_collate getrand instances batch_size
                   drop_last shuffle f g w) = Some w' →
  is_Some (heap w !! x) → heap w' !! x = heap w !! x.
Proof.
  intros Hout Hl. destruct g as [|lst pos|]; cbn [BatchSize_next] in Hout.
  - destruct shuffle.
    + pose proof (BatchSize_start_heap w x Hl) as Hstart.
      destruct (list_copy instances w) as [lst w1]. cbn [fst snd] in Hstart.
      apply BatchSize_loop_world in Hout as ->. done.
    + by apply BatchSize_loop_world in Hout as ->.
  - by apply BatchSize_loop_world in Hout as ->.
  - by injection Hout as <-.
Qed.

Lemma BatchSize_pull_frame k f g w bs e g' w' x :
  pull BS f k g w = Some (bs, e, g', w') →
  is_Some (heap w !! x) → heap w' !! x = heap w !! x.
Proof.
  revert g w bs e g' w'.
  induction k as [|k IH]; intros g w bs e g' w' Hpull Hl.
  { by injection Hpull as _ _ _ <-. }
  cbn [pull __next__ BatchSizeDataLoader] in Hpull.
  pose proof (BatchSize_next_frame f g w) as Hstep.
  destruct (BatchSize_next _ _ _ _ _ _ f g w) as [b g1 w1|g1 w1|e1 g1 w1|];
    [| | |done].
  - specialize (Hstep w1 x eq_refl Hl).
    destruct (pull BS f k g1 w1) as [[[[bs1 e1] g2] w2]|] eqn:Hrec; [|done].
    injection Hpull as _ _ _ <-.
    rewrite <- Hstep. eapply IH; [exact Hrec|]. by rewrite Hstep.
  - injection Hpull as _ _ _ <-. by apply Hstep.
  - injection Hpull as _ _ _ <-. by apply Hstep.
Qed.

(** The declared count. *)
Lemma BatchSize_num_batches w l :
  (0 < batch_size)%Z → heap w !! instances = Some l →
  num_batches_per_epoch BS w =
    Ok (Some (if drop_last then (Z.of_nat (length l) / batch_size)%Z
              else (- ((- Z.of_nat (length l)) / batch_size))%Z)).
Proof.
  intros Hpos Hl. cbn [num_batches_per_epoch BatchSizeDataLoader].
  unfold BatchSize_num_batches_per_epoch.
  rewrite (lookup_total_correct _ _ _ Hl).
  assert ((batch_size =? 0)%Z = false) as -> by lia.
  destruct drop_last; by rewrite ?Qfloor_div, ?Qceiling_div.
Qed.


Lemma length_groups_ceil l :
  (0 < batch_size)%Z → drop_last = false →
  is_ceil (Z.of_nat (length (groups l))) (Z.of_nat (length l)) batch_size.
Proof.
  intros Hpos Hdl. rewrite BatchSize_groups_keep_all by done.
  pose proof (length_chunks_ceil n ltac:(lia) l) as [H1 H2].
  unfold is_ceil. nia.
Qed.

Lemma length_groups_floor l :
  (0 < batch_size)%Z → drop_last = true →
  is_floor (Z.of_nat (length (groups l))) (Z.of_nat (length l)) batch_size ∧
  Forall (λ g : list Instance, Z.of_nat (length g) = batch_size) (groups l).
Proof.
  intros Hpos Hdl. rewrite BatchSize_groups_full by done.
  pose proof (full_chunks n ltac:(lia) l) as [H1 H2]. cbn zeta in *.
  split.
  - unfold is_floor. nia.
  - eapply Forall_impl; [exact H1|]. simpl. intros g Hg. lia.
Qed.



Lemma BatchSize_epoch_world_heap w x :
  is_Some (heap w !! x) → heap (epoch_world w) !! x = heap w !! x.
Proof.
  intros Hx. unfold BatchSize_epoch_world. destruct shuffle; [|done].
  by apply BatchSize_start_heap.
Qed.


(** The generator that the loop leaves is at some position in the same
    list object, or finished. *)
Lemma BatchSize_loop_gen f lst pos w :
  match loop f lst pos w with
  | Yield _ g' _ => ∃ pos', g' = BS_Chunking lst pos'
  | StopIteration g' _ | Raised _ g' _ => g' = BS_Finished
  | OutOfFuel => True
  end.
Proof.
  revert pos. induction f as [|f IH]; intros pos; [done|]. simpl.
  destruct (batch_size <? 0)%Z; [done|].
  destruct (take n (drop pos (heap w !!! lst))); [done|].
  destruct (keeps _); [by eexists|]. apply IH.
Qed.

(** With shuffle on, the list object that a generator iterates is none of
    those that existed when it was started. *)
Lemma BatchSize_pull_private k f g w bs e g' w' (P : loc → Prop) :
  shuffle = true →
  pull BS f k g w = Some (bs, e, g', w') →
  (∀ x, P x → is_Some (heap w !! x)) →
  (∀ lst pos, g = BS_Chunking lst pos → ¬ P lst) →
  ∀ lst pos, g' = BS_Chunking lst pos → ¬ P lst.
Proof.
  intros Hsh. revert g w bs e g' w'.
  induction k as [|k IH]; intros g w bs e g' w' Hpull HP Hg.
  { by injection Hpull as _ _ <- _. }
  cbn [pull __next__ BatchSizeDataLoader] in Hpull.
  pose proof (BatchSize_next_frame f g w) as Hframe.
  assert (Hgen : match BatchSize_next allennlp_collate getrand instances
                         batch_size drop_last shuffle f g w with
                 | Yield _ g1 _ => ∀ lst pos, g1 = BS_Chunking lst pos → ¬ P lst
                 | StopIteration g1 _ | Raised _ g1 _ => g1 = BS_Finished
                 | OutOfFuel => True
                 end).
  { destruct g as [|lst0 pos0|]; cbn [BatchSize_next].
    - rewrite Hsh. pose proof (list_copy_fresh w) as Hfresh.
      destruct (list_copy instances w) as [lst0 w1]. cbn [fst] in Hfresh.
      pose proof (BatchSize_loop_gen f lst0 0
                    (shuffle_in_place getrand lst0 w1)) as Hloop.
      destruct (loop f lst0 0 _); try done.
      destruct Hloop as [pos' ->]. intros lst pos [= <- _] HPl.
      apply HP in HPl. rewrite Hfresh in HPl. by destruct HPl.
    - pose proof (BatchSize_loop_gen f lst0 pos0 w) as Hloop.
      destruct (loop f lst0 pos0 w); try done.
      destruct Hloop as [pos' ->]. intros lst pos [= <- _]. by eapply Hg.
    - done. }
  destruct (BatchSize_next _ _ _ _ _ _ f g w) as [b g1 w1|g1 w1|e1 g1 w1|];
    [| | |done].
  - destruct (pull BS f k g1 w1) as [[[[bs1 e2] g2] w2]|] eqn:Hrec; [|done].
    injection Hpull as _ _ <- _.
    eapply IH; [exact Hrec| |exact Hgen].
    intros x Hx. rewrite (Hframe w1 x eq_refl); by apply HP.
  - injection Hpull as _ _ <- _. by rewrite Hgen.
  - injection Hpull as _ _ <- _. by rewrite Hgen.
Qed.

(** C9: an iteration, whether it is abandoned after [k] batches or runs to
    its end, leaves the instance list as it was, element for element; with
    shuffle on, the list object it goes through is another one, made for
    this epoch. *)
Theorem C9_instances_not_mutated k f w l bs e g' w' :
  heap w !! instances = Some l →
  pull BS f k (__iter__ BS) w = Some (bs, e, g', w') →
  heap w' !! instances = Some l ∧
  (shuffle = true → ∀ lst pos, g' = BS_Chunking lst pos →
     lst ≠ instances ∧ heap w !! lst = None).
Proof.
  intros Hl Hpull. split.
  - rewrite <- Hl. eapply BatchSize_pull_frame; [exact Hpull|by rewrite Hl].
  - intros Hsh lst pos Hg'.
    assert (Hnone : ¬ is_Some (heap w !! lst)).
    { eapply (BatchSize_pull_private k f _ w bs e g' w'
                (λ x, is_Some (heap w !! x))); eauto. done. }
    split.
    + intros ->. apply Hnone. by rewrite Hl.
    + by apply eq_None_not_Some.
Qed.
End BatchSizeTheory.

(** *** [SamplerDataLoader] *)

Section SamplerTheory.
Context {Instance TensorDict G : Type}.
Context (allennlp_collate : list Instance → TensorDict).
Context (instances : loc) (batch_sampler : BatchSampler (Instance := Instance)).

Lemma Sampler_fuel_monotone :
  fuel_monotone (SamplerDataLoader (G := G) allennlp_collate instances batch_sampler).
Proof.
  intros n m g w Hle Hne.
  destruct n as [|n]; [done|]. destruct m as [|m]; [lia|]. done.
Qed.

(** The declared count is the sampler's. *)
Lemma Sampler_num_batches (w : World (G := G)) l :
  heap w !! instances = Some l →
  num_batches_per_epoch (SamplerDataLoader allennlp_collate instances batch_sampler) w
  = Ok (Some (get_num_batches batch_sampler l)).
Proof.
  intros Hl. cbn [num_batches_per_epoch SamplerDataLoader].
  unfold Sampler_num_batches_per_epoch.
  by rewrite (lookup_total_correct _ _ _ Hl).
Qed.
End SamplerTheory.

(** *** [MaxBatchesDataLoader] *)

Section MaxBatchesTheory.
Context {TensorDict W : Type} (inner : TangoDataLoader TensorDict W).
Context (max_batches_per_epoch : Z).

Local Abbreviation MB := (MaxBatchesDataLoader inner max_batches_per_epoch).
Local Abbreviation cap := (Z.to_nat max_batches_per_epoch).

Lemma MaxBatches_loop_mono n m it i w :
  fuel_monotone inner → n ≤ m →
  MaxBatches_loop inner max_batches_per_epoch n it i w ≠ OutOfFuel →
  MaxBatches_loop inner max_batches_per_epoch m it i w
  = MaxBatches_loop inner max_batches_per_epoch n it i w.
Proof.
  intros Hin Hle Hne. unfold MaxBatches_loop in *.
  rewrite (Hin n m it w Hle); [done|].
  intros Hfuel. by rewrite Hfuel in Hne.
Qed.

Lemma MaxBatches_fuel_monotone : fuel_monotone inner → fuel_monotone MB.
Proof.
  intros Hin n m g w Hle Hne.
  destruct n as [|n]; [done|]. destruct m as [|m]; [lia|].
  cbn [__next__ MaxBatchesDataLoader MaxBatches_next] in *.
  destruct g; [| |done]; apply MaxBatches_loop_mono; (done || lia).
Qed.

(** C8: the declared count of the capped loader is unknown when the inner
    count is unknown, whatever the cap, and otherwise the smaller of the
    cap and the inner count. *)
Theorem C8_capped_declared_count w :
  (num_batches_per_epoch inner w = Ok None →
   num_batches_per_epoch (MaxBatchesDataLoader inner max_batches_per_epoch) w
   = Ok None) ∧
  (∀ batches, num_batches_per_epoch inner w = Ok (Some batches) →
     num_batches_per_epoch (MaxBatchesDataLoader inner max_batches_per_epoch) w
     = Ok (Some (Z.min max_batches_per_epoch batches))).
Proof.
  cbn [num_batches_per_epoch MaxBatchesDataLoader].
  unfold MaxBatches_num_batches_per_epoch.
  split; [intros ->|intros batches ->]; done.
Qed.

Lemma MaxBatches_next_enumerating f it i w :
  __next__ MB (S f) (MB_Enumerating it i) w
  = MaxBatches_loop inner max_batches_per_epoch f it i w.
Proof. done. Qed.

(** Consuming the capped loader from a suspended generator whose next
    index is [i]: the inner iterator is resumed once more than the number
    of batches still allowed. *)
Lemma MaxBatches_to_list_enumerating f it i w bs e g' w' F :
  fuel_monotone inner →
  (0 ≤ i ≤ max_batches_per_epoch)%Z →
  pull inner f (S (Z.to_nat (max_batches_per_epoch - i))) it w
    = Some (bs, e, g', w') →
  f + Z.to_nat (max_batches_per_epoch - i) + 2 ≤ F →
  to_list MB F (MB_Enumerating it i) w
    = Some (take (Z.to_nat (max_batches_per_epoch - i)) bs, e, w').
Proof.
  intros Hin. remember (Z.to_nat (max_batches_per_epoch - i)) as k eqn:Hk.
  revert it i w bs e g' w' F Hk.
  induction k as [|k IH]; intros it i w bs e g' w' F Hk Hi Hpull HF.
  - destruct F as [|[|F]]; [lia|lia|].
    rewrite pull_S in Hpull.
    rewrite to_list_S, MaxBatches_next_enumerating.
    unfold MaxBatches_loop.
    assert (Hne : __next__ inner f it w ≠ OutOfFuel)
      by (intros Hfuel; by rewrite Hfuel in Hpull).
    rewrite (Hin f F it w ltac:(lia) Hne).
    destruct (__next__ inner f it w) as [b g1 w1|g1 w1|e1 g1 w1|];
      [| | |done].
    + assert ((i >=? max_batches_per_epoch)%Z = true) as -> by lia.
      by injection Hpull as <- <- _ <-.
    + by injection Hpull as <- <- _ <-.
    + by injection Hpull as <- <- _ <-.
  - destruct F as [|[|F]]; [lia|lia|].
    rewrite pull_S in Hpull.
    rewrite to_list_S, MaxBatches_next_enumerating.
    unfold MaxBatches_loop.
    assert (Hne : __next__ inner f it w ≠ OutOfFuel)
      by (intros Hfuel; by rewrite Hfuel in Hpull).
    rewrite (Hin f F it w ltac:(lia) Hne).
    destruct (__next__ inner f it w) as [b g1 w1|g1 w1|e1 g1 w1|];
      [| | |done].
    + assert ((i >=? max_batches_per_epoch)%Z = false) as -> by lia.
      destruct (pull inner f (S k) g1 w1) as [[[[bs1 e1] g2] w2]|] eqn:Hrec;
        [|done].
      injection Hpull as <- <- _ <-.
      rewrite (IH g1 (i + 1)%Z w1 bs1 e1 g2 w2 (S F));
        [done|lia|lia|exact Hrec|lia].
    + by injection Hpull as <- <- _ <-.
    + by injection Hpull as <- <- _ <-.
Qed.

(** Consuming one epoch of the capped loader has the effect of resuming a
    fresh inner generator [cap + 1] times: it yields the first [cap]
    batches of those resumptions and leaves the world where the last of
    them left it. *)
Lemma MaxBatches_to_list f w bs e g' w' F :
  fuel_monotone inner →
  (0 ≤ max_batches_per_epoch)%Z →
  pull inner f (S cap) (__iter__ inner) w = Some (bs, e, g', w') →
  f + cap + 2 ≤ F →
  to_list MB F (__iter__ MB) w = Some (take cap bs, e, w') ∧
  length (take cap bs) ≤ cap.
Proof.
  intros Hin Hcap Hpull HF. split; [|rewrite length_take; lia].
  assert (Hstart : ∀ k, to_list MB k (__iter__ MB) w
                        = to_list MB k (MB_Enumerating (__iter__ inner) 0) w).
  { intros [|[|k]]; done. }
  rewrite Hstart.
  pose proof (MaxBatches_to_list_enumerating f (__iter__ inner) 0%Z w bs e g' w' F
                Hin ltac:(lia)) as Hen.
  rewrite Z.sub_0_r in Hen. by apply Hen.
Qed.
End MaxBatchesTheory.

(** *** [BatchesPerEpochDataLoader] *)

Section BatchesPerEpochTheory.
Context {TensorDict W : Type} (inner : TangoDataLoader TensorDict W).
Context (batches_per_epoch : Z).

Local Abbreviation BPE := (BatchesPerEpochDataLoader inner batches_per_epoch).
Local Abbreviation bpe_loop := (BatchesPerEpoch_loop inner batches_per_epoch).

Lemma BatchesPerEpoch_loop_mono n m y w :
  fuel_monotone inner → n ≤ m →
  bpe_loop n y w ≠ OutOfFuel → bpe_loop m y w = bpe_loop n y w.
Proof.
  intros Hin. revert m w. induction n as [|n IH]; intros m w Hle Hne; [done|].
  destruct m as [|m]; [lia|]. cbn [BatchesPerEpoch_loop] in *.
  destruct (y <? batches_per_epoch)%Z; [|done].
  assert (Hne' : __next__ inner n w.2 w.1 ≠ OutOfFuel)
    by (intros Hfuel; by rewrite Hfuel in Hne).
  rewrite (Hin n m w.2 w.1 ltac:(lia) Hne').
  destruct (__next__ inner n w.2 w.1) as [b g1 w1|g1 w1|e1 g1 w1|]; try done.
  apply IH; [lia|done].
Qed.

Lemma BatchesPerEpoch_fuel_monotone : fuel_monotone inner → fuel_monotone BPE.
Proof.
  intros Hin n m g w Hle Hne.
  cbn [__next__ BatchesPerEpochDataLoader BatchesPerEpoch_next] in *.
  destruct g; [| |done]; by apply BatchesPerEpoch_loop_mono.
Qed.

Lemma BatchesPerEpoch_next_resumes f g y w :
  resumes_at g y → __next__ BPE f g w = bpe_loop f y w.
Proof.
  intros [[-> ->]| ->]; [done|].
  cbn [__next__ BatchesPerEpochDataLoader BatchesPerEpoch_next].
  by replace (y - 1 + 1)%Z with y by lia.
Qed.

Section ExactCount.
(** The inner loader is well behaved in the states that [Inv] holds of:
    resuming it yields or stops, without an exception and without
    diverging, and an epoch of it is never empty. *)
Context (Inv : Gen inner → W → Prop).
Context (Hin : fuel_monotone inner).
Context (Hstep : ∀ g w, Inv g w →
  ∃ n, match __next__ inner n g w with
       | Yield _ g' w' => Inv g' w'
       | StopIteration _ w' => Inv (__iter__ inner) w'
       | _ => False
       end).
Context (Hnonempty : ∀ n w g' w',
  Inv (__iter__ inner) w →
  __next__ inner n (__iter__ inner) w ≠ StopIteration g' w').

(** Below the target, the loop yields: from the cursor, or else from a
    new inner epoch. *)
Lemma BatchesPerEpoch_loop_yields y w cur :
  (y < batches_per_epoch)%Z → Inv cur w →
  ∃ n b w' cur',
    bpe_loop n y (w, cur) = Yield b (BPE_Yielded y) (w', cur') ∧ Inv cur' w'.
Proof.
  intros Hy HInv.
  destruct (Hstep cur w HInv) as [n1 H1].
  destruct (__next__ inner n1 cur w) as [b g1 w1|g1 w1| |] eqn:Hn1;
    [| |done|done].
  - exists (S n1), b, w1, g1. split; [|done].
    cbn [BatchesPerEpoch_loop fst snd].
    assert ((y <? batches_per_epoch)%Z = true) as -> by lia.
    by rewrite Hn1.
  - destruct (Hstep _ w1 H1) as [n2 H2].
    destruct (__next__ inner n2 (__iter__ inner) w1) as [b g2 w2|g2 w2| |]
      eqn:Hn2; [|by apply Hnonempty in Hn2|done|done].
    exists (S (S (n1 `max` n2))), b, w2, g2. split; [|done].
    cbn [BatchesPerEpoch_loop fst snd].
    assert ((y <? batches_per_epoch)%Z = true) as -> by lia.
    rewrite (Hin n1 (S (n1 `max` n2)) cur w), Hn1 by (lia || congruence).
    rewrite (Hin n2 (n1 `max` n2) (__iter__ inner) w1), Hn2
      by (lia || congruence).
    done.
Qed.

Lemma BatchesPerEpoch_to_list_resumes k : ∀ g y w cur,
  resumes_at g y → Z.to_nat (batches_per_epoch - y) = k → Inv cur w →
  ∃ F bs w' cur',
    to_list BPE F g (w, cur) = Some (bs, None, (w', cur')) ∧
    length bs = k ∧ Inv cur' w'.
Proof.
  induction k as [|k IH]; intros g y w cur Hg Hk HInv.
  - exists 2, [], w, cur. repeat split; [|done].
    rewrite to_list_S, (BatchesPerEpoch_next_resumes _ g y) by done.
    cbn [BatchesPerEpoch_loop].
    by assert ((y <? batches_per_epoch)%Z = false) as -> by lia.
  - destruct (BatchesPerEpoch_loop_yields y w cur ltac:(lia) HInv)
      as (n & b & w1 & cur1 & Hloop & HInv1).
    destruct (IH (BPE_Yielded y) (y + 1)%Z w1 cur1) as
      (F1 & bs1 & w' & cur' & Hrun & Hlen & HInv'); [|lia|done|].
    { right. f_equal. lia. }
    exists (S (n `max` F1)), (b :: bs1), w', cur'.
    repeat split; [|by rewrite <- Hlen|done].
    rewrite to_list_S, (BatchesPerEpoch_next_resumes _ g y) by done.
    rewrite (BatchesPerEpoch_loop_mono n), Hloop by (done || lia || congruence).
    rewrite (to_list_mono BPE (BatchesPerEpoch_fuel_monotone Hin)
               F1 (n `max` F1) _ _ _ ltac:(lia) Hrun).
    done.
Qed.

(** Each epoch of the exact-count loader yields the target number of
    batches and leaves the cursor in a state from which the same
    holds again. *)
Lemma BatchesPerEpoch_exact_count w cur :
  Inv cur w →
  ∃ F bs w' cur',
    to_list BPE F (__iter__ BPE) (w, cur) = Some (bs, None, (w', cur')) ∧
    length bs = Z.to_nat batches_per_epoch ∧ Inv cur' w'.
Proof.
  intros HInv.
  apply (BatchesPerEpoch_to_list_resumes _ BPE_NotStarted 0%Z);
    [by left|f_equal; lia|done].
Qed.
End ExactCount.
End BatchesPerEpochTheory.

(** *** [BatchSizeDataLoader] under a wrapper *)

Section BatchSizeAsInner.
Context {Instance TensorDict G : Type}.
Context (allennlp_collate : list Instance → TensorDict).
Context (getrand : G → nat * G).
Context (instances : loc) (batch_size : Z) (drop_last shuffle : bool).
Context (Hpos : (0 < batch_size)%Z).

Local Abbreviation BS :=
  (BatchSizeDataLoader allennlp_collate getrand instances batch_size drop_last shuffle).
Local Abbreviation loop := (BatchSize_loop allennlp_collate batch_size drop_last).
Local Abbreviation groups := (BatchSize_groups batch_size drop_last).
Local Abbreviation epoch_order := (BatchSize_epoch_order getrand instances shuffle).
Local Abbreviation epoch_world := (BatchSize_epoch_world getrand instances shuffle).
Local Abbreviation epoch_list := (BatchSize_epoch_list instances shuffle).
Implicit Types (w : World (Instance:=Instance) (G:=G)).

Lemma BatchSize_next_start f w :
  __next__ BS f BS_NotStarted w = loop f (epoch_list w) 0 (epoch_world w).
Proof.
  cbn [__next__ BatchSizeDataLoader BatchSize_next].
  unfold BatchSize_epoch_list, BatchSize_epoch_world.
  destruct shuffle; [|done]. by destruct (list_copy instances w).
Qed.

Lemma BatchSize_epoch_list_order w :
  heap (epoch_world w) !!! epoch_list w = epoch_order w.
Proof.
  unfold BatchSize_epoch_list, BatchSize_epoch_world, BatchSize_epoch_order.
  destruct shuffle; [|done].
  unfold shuffle_in_place, list_copy. cbn [fst snd heap rng].
  rewrite lookup_total_insert_eq.
  destruct (random_shuffle _ _ _). cbn [heap fst].
  by rewrite lookup_total_insert_eq.
Qed.

(** Resumed with fuel 2, the generator yields or stops, and the instances
    are as they were. *)
Lemma BatchSize_inner_step (l : list Instance) g w :
  heap w !! instances = Some l →
  ∃ f, match __next__ BS f g w with
       | Yield _ _ w' | StopIteration _ w' => heap w' !! instances = Some l
       | _ => False
       end.
Proof.
  intros Hl. exists 2.
  pose proof (BatchSize_next_frame allennlp_collate getrand instances batch_size
                drop_last shuffle 2 g w) as Hframe.
  assert (Hok : match __next__ BS 2 g w with
                | Yield _ _ _ | StopIteration _ _ => True
                | _ => False
                end).
  { destruct g as [|lst pos|].
    - rewrite BatchSize_next_start, BatchSize_loop_spec by (done || lia).
      by destruct (groups _).
    - cbn [__next__ BatchSizeDataLoader BatchSize_next].
      rewrite BatchSize_loop_spec by (done || lia). by destruct (groups _).
    - done. }
  cbn [__next__ BatchSizeDataLoader] in *.
  destruct (BatchSize_next _ _ _ _ _ _ 2 g w) as [b g1 w1|g1 w1| |];
    [| |done|done];
    rewrite <- Hl; apply Hframe; [done|by rewrite Hl|done|by rewrite Hl].
Qed.

(** An epoch over some instances, of which a first group is kept, is not
    empty. *)
Lemma BatchSize_inner_nonempty (l : list Instance) f w g' w' :
  l ≠ [] → (drop_last = true → (batch_size ≤ Z.of_nat (length l))%Z) →
  heap w !! instances = Some l →
  __next__ BS f BS_NotStarted w ≠ StopIteration g' w'.
Proof.
  intros Hne Hfull Hl Hstop.
  assert (H2 : __next__ BS (f `max` 2) BS_NotStarted w = StopIteration g' w').
  { rewrite <- Hstop. apply BatchSize_fuel_monotone; [lia|by rewrite Hstop]. }
  rewrite BatchSize_next_start, BatchSize_loop_spec in H2 by (done || lia).
  rewrite drop_0, BatchSize_epoch_list_order in H2.
  assert (Hlen : length (epoch_order w) = length l).
  { rewrite BatchSize_epoch_order_Permutation.
    by rewrite (lookup_total_correct _ _ _ Hl). }
  assert (Hne' : epoch_order w ≠ []).
  { intros Hnil. rewrite Hnil in Hlen. destruct l; [done|simpl in Hlen; lia]. }
  rewrite BatchSize_groups_unfold in H2 by done.
  assert (Hkeep : BatchSize_keeps batch_size drop_last
                    (take (Z.to_nat batch_size) (epoch_order w)) = true).
  { unfold BatchSize_keeps. destruct drop_last; [|done]. simpl.
    apply Z.leb_le. rewrite length_take, Hlen. specialize (Hfull eq_refl). lia. }
  by rewrite Hkeep in H2.
Qed.
End BatchSizeAsInner.

(** *** Where exceptions come from *)

Section Exceptions.
Context {Instance TensorDict G : Type}.
Context (allennlp_collate : list Instance → TensorDict).
Context (getrand : G → nat * G).

Lemma BatchSize_loop_raises batch_size drop_last f lst pos
    (w : World (Instance:=Instance) (G:=G)) e g' w' :
  BatchSize_loop allennlp_collate batch_size drop_last f lst pos w = Raised e g' w' →
  e = ValueError ∧ (batch_size < 0)%Z.
Proof.
  revert pos. induction f as [|f IH]; intros pos; [done|]. simpl.
  destruct (batch_size <? 0)%Z eqn:Hneg; [intros [= <- _ _]; split; [done|lia]|].
  destruct (take _ _); [done|]. destruct (BatchSize_keeps _ _ _); [done|].
  apply IH.
Qed.

Lemma BatchSize_next_raises instances batch_size drop_last shuffle f g w e g' w' :
  __next__ (BatchSizeDataLoader allennlp_collate getrand instances batch_size
              drop_last shuffle) f g w = Raised e g' w' →
  e = ValueError ∧ (batch_size < 0)%Z.
Proof.
  cbn [__next__ BatchSizeDataLoader BatchSize_next].
  destruct g; [destruct shuffle; [destruct (list_copy instances w)|]| |done];
    apply BatchSize_loop_raises.
Qed.

Lemma BatchesPerEpoch_next_raises {W} (inner : TangoDataLoader TensorDict W)
    batches_per_epoch f g w e g' w' :
  __next__ (BatchesPerEpochDataLoader inner batches_per_epoch) f g w
    = Raised e g' w' →
  ∃ n it wi it' wi', __next__ inner n it wi = Raised e it' wi'.
Proof.
  assert (Hloop : ∀ f y w,
    BatchesPerEpoch_loop inner batches_per_epoch f y w = Raised e g' w' →
    ∃ n it wi it' wi', __next__ inner n it wi = Raised e it' wi').
  { clear. intros f y. induction f as [|f IH]; intros w; [done|].
    cbn [BatchesPerEpoch_loop].
    destruct (y <? batches_per_epoch)%Z; [|done].
    destruct (__next__ inner f w.2 w.1) as [b g1 w1|g1 w1|e1 g1 w1|] eqn:Hn;
      [done|apply IH| |done].
    intros [= -> _ _]. eauto 6. }
  cbn [__next__ BatchesPerEpochDataLoader BatchesPerEpoch_next].
  destruct g; [apply Hloop|apply Hloop|done].
Qed.

Lemma MaxBatches_next_raises {W} (inner : TangoDataLoader TensorDict W)
    max_batches_per_epoch f g w e g' w' :
  __next__ (MaxBatchesDataLoader inner max_batches_per_epoch) f g w
    = Raised e g' w' →
  ∃ n it wi it' wi', __next__ inner n it wi = Raised e it' wi'.
Proof.
  assert (Hloop : ∀ f it i w,
    MaxBatches_loop inner max_batches_per_epoch f it i w = Raised e g' w' →
    ∃ n it wi it' wi', __next__ inner n it wi = Raised e it' wi').
  { clear. intros f it i w. unfold MaxBatches_loop.
    destruct (__next__ inner f it w) as [b g1 w1|g1 w1|e1 g1 w1|] eqn:Hn;
      [by destruct (i >=? _)%Z|done| |done].
    intros [= -> _ _]. eauto 6. }
  cbn [__next__ MaxBatchesDataLoader MaxBatches_next].
  destruct f; [done|]. destruct g; [apply Hloop|apply Hloop|done].
Qed.

End Exceptions.

(** C10: on every loader and in every state, [__len__] returns what
    [num_batches_per_epoch] returns there, a count, unknown or an exception
    alike; all it does besides is log the deprecation warning. *)
Theorem C10_len_is_num_batches_per_epoch {TensorDict W}
    (L : TangoDataLoader TensorDict W) (log : list string) (w : W) :
  (__len__ L log w).2 = num_batches_per_epoch L w ∧
  (__len__ L log w).1 = log ++ [deprecation_warning].
Proof. done. Qed.

(** ** The claims on concrete loaders *)

(** C1, at an input where the code departs from it: a cap of 2 over an
    exact-count loader of 5 batches over the instances 1 to 5, in batches of
    one.  An epoch of the capped loader yields the batches 1 and 2, as it
    should, and leaves the cursor of the inner loader after instance 3: the
    [for] loop took a third batch from the inner iterator before it tested
    the cap.  Taking two batches from the inner loader directly leaves the
    cursor after instance 2.  The next epoch of the capped loader therefore
    starts at batch 4: batch 3 was consumed and never yielded. *)
Theorem C1_capped_loader_consumes_one_more :
  let inner := BatchesPerEpochDataLoader (ex_BatchSize 1 false false) 5 in
  let capped := MaxBatchesDataLoader inner 2 in
  let w := (ex_world [1; 2; 3; 4; 5], __iter__ (ex_BatchSize 1 false false)) in
  to_list capped 20 (__iter__ capped) w
    = Some ([[1]; [2]], None, (ex_world [1; 2; 3; 4; 5], BS_Chunking 0 3)) ∧
  pull inner 20 2 (__iter__ inner) w
    = Some ([[1]; [2]], None, BPE_Yielded 1,
            (ex_world [1; 2; 3; 4; 5], BS_Chunking 0 2)) ∧
  epochs capped 20 2 w
    = Some ([([[1]; [2]], None); ([[4]; [5]], None)],
            (ex_world [1; 2; 3; 4; 5], BS_Chunking 0 1)).
Proof. vm_compute. done. Qed.




(** ** The theorems at concrete inputs *)







Lemma C8_witness :
  num_batches_per_epoch (MaxBatchesDataLoader ex_unknown_length 4) tt = Ok None ∧
  num_batches_per_epoch (MaxBatchesDataLoader (ex_BatchSize 1 false false) 4)
    (ex_world [1; 2; 3; 4; 5; 6; 7; 8; 9; 10]) = Ok (Some 4%Z).
Proof.
  split.
  - apply (proj1 (C8_capped_declared_count ex_unknown_length 4 tt)). reflexivity.
  - apply (proj2 (C8_capped_declared_count (ex_BatchSize 1 false false) 4
                    (ex_world [1; 2; 3; 4; 5; 6; 7; 8; 9; 10])) 10%Z).
    vm_compute. reflexivity.
Defined.

Lemma C9_witness :
  ∃ bs e g' w',
    pull (ex_BatchSize 2 false true) 5 1 BS_NotStarted (ex_world [1; 2; 3; 4; 5])
      = Some (bs, e, g', w') ∧
    heap w' !! 0 = Some [1; 2; 3; 4; 5] ∧
    (true = true → ∀ lst pos, g' = BS_Chunking lst pos →
       lst ≠ 0 ∧ heap (ex_world [1; 2; 3; 4; 5]) !! lst = None).
Proof.
  eexists _, _, _, _. split; [vm_compute; reflexivity|].
  eapply (C9_instances_not_mutated (λ batch : list nat, batch) lcg 0 2 false true
            1 5 (ex_world [1; 2; 3; 4; 5]) [1; 2; 3; 4; 5]);
    [reflexivity|vm_compute; reflexivity].
Defined.

(** ** Further properties of the loaders *)

(** *** More on the chunks *)

Section ChunksShape.
Context {A : Type} (n : nat) (Hn : 0 < n).
Implicit Types l : list A.

(** Every chunk but the last is full. *)
Lemma chunks_lookup_full l i :
  S i < length (chunks n l) →
  ∃ c, chunks n l !! i = Some c ∧ length c = n.
Proof.
  revert i.
  apply (chunks_ind n Hn (λ l cs, ∀ i, S i < length cs →
                            ∃ c, cs !! i = Some c ∧ length c = n)).
  - simpl. lia.
  - intros l' Hl' IH i Hi. simpl in Hi.
    destruct i as [|i].
    + exists (take n l'). split; [done|].
      destruct (decide (n < length l')) as [Hlt|Hge].
      * rewrite length_take. lia.
      * rewrite drop_ge, chunks_nil in Hi by lia. simpl in Hi. lia.
    + apply IH. lia.
Qed.

(** The full chunks make up a prefix of the list. *)
Lemma concat_full_chunks l :
  concat (filter (λ c : list A, n ≤ length c) (chunks n l))
  = take (length (filter (λ c : list A, n ≤ length c) (chunks n l)) * n) l.
Proof.
  apply (chunks_ind n Hn (λ l cs,
    concat (filter (λ c : list A, n ≤ length c) cs)
    = take (length (filter (λ c : list A, n ≤ length c) cs) * n) l)).
  - done.
  - intros l' Hl' IH.
    destruct (decide (n ≤ length l')) as [Hle|Hgt].
    + rewrite filter_cons_True by (rewrite length_take; lia).
      cbn [concat length]. rewrite IH.
      replace (S (length (filter (λ c : list A, n ≤ length c)
                            (chunks n (drop n l'))))  * n)
        with (n + length (filter (λ c : list A, n ≤ length c)
                            (chunks n (drop n l'))) * n) by lia.
      apply take_take_drop.
    + rewrite filter_cons_False by (rewrite length_take; lia).
      rewrite drop_ge, chunks_nil by lia. done.
Qed.
End ChunksShape.

(** *** [BatchSizeDataLoader]: order, group sizes, what drop-last drops *)

Section BatchSizeEpochs.
Context {Instance TensorDict G : Type}.
Context (allennlp_collate : list Instance → TensorDict).
Context (getrand : G → nat * G).
Context (instances : loc) (batch_size : Z) (drop_last shuffle : bool).

Local Abbreviation BS :=
  (BatchSizeDataLoader allennlp_collate getrand instances batch_size drop_last shuffle).
Local Abbreviation groups := (BatchSize_groups batch_size drop_last).
Local Abbreviation n := (Z.to_nat batch_size).
Local Abbreviation epoch_order := (BatchSize_epoch_order getrand instances shuffle).
Local Abbreviation epoch_world := (BatchSize_epoch_world getrand instances shuffle).
Local Abbreviation epoch_list := (BatchSize_epoch_list instances shuffle).
Implicit Types (w : World (Instance:=Instance) (G:=G)) (l : list Instance).




(** The first resumption of a new generator runs the loop from the start
    of the list the epoch goes through. *)
Lemma BatchSize_to_list_start f w :
  to_list BS f BS_NotStarted w
  = to_list BS f (BS_Chunking (epoch_list w) 0) (epoch_world w).
Proof.
  destruct f as [|f]; [done|].
  rewrite !to_list_S, BatchSize_next_start. done.
Qed.

(** X4: with batch size 0, asking the declared count raises
    [ZeroDivisionError], whatever the instances, and every epoch is empty:
    no batch, no exception. *)
Theorem BatchSize_zero_batch_size w f :
  batch_size = 0%Z → 2 ≤ f →
  num_batches_per_epoch BS w = Raise ZeroDivisionError ∧
  to_list BS f (__iter__ BS) w = Some ([], None, epoch_world w).
Proof.
  intros Hzero Hf. split.
  - cbn [num_batches_per_epoch BatchSizeDataLoader].
    unfold BatchSize_num_batches_per_epoch. by rewrite Hzero.
  - cbn [__iter__ BatchSizeDataLoader]. rewrite BatchSize_to_list_start.
    destruct f as [|[|f]]; [lia|lia|].
    rewrite to_list_S. cbn [__next__ BatchSizeDataLoader BatchSize_next BatchSize_loop].
    by rewrite Hzero.
Qed.

(** X5: with a negative batch size, the declared count is an integer that
    is not positive, and an epoch raises [ValueError] before its first
    batch, after the shuffle if shuffle is on. *)
Theorem BatchSize_negative_batch_size w l f :
  (batch_size < 0)%Z → heap w !! instances = Some l → 2 ≤ f →
  (∃ r, num_batches_per_epoch BS w = Ok (Some r) ∧ (r ≤ 0)%Z) ∧
  to_list BS f (__iter__ BS) w = Some ([], Some ValueError, epoch_world w).
Proof.
  intros Hneg Hl Hf. split.
  - cbn [num_batches_per_epoch BatchSizeDataLoader].
    unfold BatchSize_num_batches_per_epoch.
    rewrite (lookup_total_correct _ _ _ Hl).
    assert ((batch_size =? 0)%Z = false) as -> by lia.
    destruct drop_last; rewrite ?Qfloor_div, ?Qceiling_div;
      eexists; (split; [done|]).
    + pose proof (Z.div_mod (Z.of_nat (length l)) batch_size ltac:(lia)).
      pose proof (Z.mod_neg_bound (Z.of_nat (length l)) batch_size Hneg). nia.
    + pose proof (Z.div_mod (- Z.of_nat (length l)) batch_size ltac:(lia)).
      pose proof (Z.mod_neg_bound (- Z.of_nat (length l)) batch_size Hneg). nia.
  - cbn [__iter__ BatchSizeDataLoader]. rewrite BatchSize_to_list_start.
    destruct f as [|[|f]]; [lia|lia|].
    rewrite to_list_S. cbn [__next__ BatchSizeDataLoader BatchSize_next BatchSize_loop].
    by assert ((batch_size <? 0)%Z = true) as -> by lia.
Qed.
End BatchSizeEpochs.

(** *** [BatchSizeDataLoader]: iterations that are abandoned *)

Section BatchSizePulls.
Context {Instance TensorDict G : Type}.
Context (allennlp_collate : list Instance → TensorDict).
Context (getrand : G → nat * G).
Context (instances : loc) (batch_size : Z) (drop_last shuffle : bool).
Context (Hpos : (0 < batch_size)%Z).

Local Abbreviation BS :=
  (BatchSizeDataLoader allennlp_collate getrand instances batch_size drop_last shuffle).
Local Abbreviation groups := (BatchSize_groups batch_size drop_last).
Local Abbreviation n := (Z.to_nat batch_size).
Local Abbreviation epoch_order := (BatchSize_epoch_order getrand instances shuffle).
Local Abbreviation epoch_world := (BatchSize_epoch_world getrand instances shuffle).
Local Abbreviation epoch_list := (BatchSize_epoch_list instances shuffle).
Implicit Types (w : World (Instance:=Instance) (G:=G)) (l : list Instance).

Lemma BatchSize_groups_head l c gs :
  groups l = c :: gs → c = take n l ∧ gs = groups (drop n l).
Proof.
  intros Hg. destruct (decide (l = [])) as [->|Hl]; [done|].
  rewrite BatchSize_groups_unfold in Hg by done.
  destruct (BatchSize_keeps _ _ _); [|done]. by injection Hg as <- <-.
Qed.

(** After its first [k] groups, what is left of the list has the other
    groups. *)
Lemma BatchSize_groups_drop k : ∀ l,
  k ≤ length (groups l) →
  groups (drop (length (concat (take k (groups l)))) l) = drop k (groups l).
Proof.
  induction k as [|k IH]; intros l Hk; [done|].
  destruct (groups l) as [|c gs] eqn:Hg; [simpl in Hk; lia|].
  apply BatchSize_groups_head in Hg as [-> ->].
  cbn [take concat drop]. rewrite length_app, <- drop_drop.
  rewrite drop_length_take by lia. apply IH. simpl in Hk. lia.
Qed.

(** Resuming a generator [k] times yields the next [k] groups, or all that
    are left if they are fewer. *)
Lemma BatchSize_pull_chunking f k : ∀ lst pos w,
  2 ≤ f →
  ∃ g', pull BS f k (BS_Chunking lst pos) w
        = Some (allennlp_collate <$> take k (groups (drop pos (heap w !!! lst))),
                None, g', w).
Proof.
  induction k as [|k IH]; intros lst pos w Hf; [by eexists|].
  rewrite pull_S. cbn [__next__ BatchSizeDataLoader BatchSize_next].
  rewrite BatchSize_loop_spec by done.
  destruct (groups (drop pos (heap w !!! lst))) as [|c gs] eqn:Hg; [by eexists|].
  apply BatchSize_groups_head in Hg as [Hc Hgs].
  destruct (IH lst (pos + length c) w Hf) as [g' Hrec].
  exists g'. rewrite Hrec. do 4 f_equal.
  rewrite <- drop_drop, Hc, drop_length_take by lia. by rewrite Hgs.
Qed.

(** While groups are left, the generator stays in the list, after the
    groups it has yielded. *)
Lemma BatchSize_pull_prefix f k : ∀ lst pos w,
  2 ≤ f → k ≤ length (groups (drop pos (heap w !!! lst))) →
  pull BS f k (BS_Chunking lst pos) w
  = Some (allennlp_collate <$> take k (groups (drop pos (heap w !!! lst))), None,
          BS_Chunking lst
            (pos + length (concat (take k (groups (drop pos (heap w !!! lst)))))),
          w).
Proof.
  induction k as [|k IH]; intros lst pos w Hf Hk.
  { cbn [pull take concat length fmap list_fmap]. by rewrite Nat.add_0_r. }
  rewrite pull_S. cbn [__next__ BatchSizeDataLoader BatchSize_next].
  rewrite BatchSize_loop_spec by done.
  destruct (groups (drop pos (heap w !!! lst))) as [|c gs] eqn:Hg;
    [simpl in Hk; lia|].
  apply BatchSize_groups_head in Hg as [Hc Hgs].
  assert (Hrest : groups (drop (pos + length c) (heap w !!! lst)) = gs).
  { rewrite <- drop_drop, Hc, drop_length_take by lia. by rewrite Hgs. }
  rewrite (IH lst (pos + length c) w Hf); rewrite Hrest; [|simpl in Hk; lia].
  cbn [take concat]. rewrite length_app, Nat.add_assoc. done.
Qed.

Lemma BatchSize_pull_start f k w :
  0 < k →
  pull BS f k BS_NotStarted w
  = pull BS f k (BS_Chunking (epoch_list w) 0) (epoch_world w).
Proof.
  destruct k as [|k]; [lia|]. intros _.
  rewrite !pull_S, BatchSize_next_start. done.
Qed.


(** The declared count is the number of groups of an epoch, with
    drop-last or without. *)
Lemma BatchSize_num_batches_groups w l :
  heap w !! instances = Some l →
  num_batches_per_epoch BS w
  = Ok (Some (Z.of_nat (length (groups (epoch_order w))))).
Proof.
  intros Hl. pose proof (lookup_total_correct _ _ _ Hl) as Hl'.
  assert (Hlen : length (epoch_order w) = length l).
  { rewrite BatchSize_epoch_order_Permutation by done. by rewrite Hl'. }
  rewrite (BatchSize_num_batches _ _ _ _ _ _ w l Hpos Hl). do 2 f_equal.
  assert (Hcases : drop_last = true ∨ drop_last = false)
    by (destruct drop_last; auto).
  destruct Hcases as [Hdl|Hdl].
  - replace (if drop_last then _ else _)
      with (Z.of_nat (length l) / batch_size)%Z by (by rewrite Hdl).
    apply (is_floor_unique _ _ (Z.of_nat (length l)) batch_size Hpos);
      [by apply is_floor_div|].
    rewrite <- Hlen. by apply length_groups_floor.
  - replace (if drop_last then _ else _)
      with (- (- Z.of_nat (length l) / batch_size))%Z by (by rewrite Hdl).
    apply (is_ceil_unique _ _ (Z.of_nat (length l)) batch_size Hpos);
      [by apply is_ceil_div|].
    rewrite <- Hlen. by apply length_groups_ceil.
Qed.

End BatchSizePulls.

(** *** The wrappers at their edges *)

Section WrapperEdges.
Context {TensorDict W : Type} (inner : TangoDataLoader TensorDict W).

(** X7: whatever the cap, an epoch of the capped loader starts a new inner
    generator, resumes it once more than the cap allows batches (once for a
    cap that is 0 or negative), yields the batches of those resumptions
    but the last, so never more than the cap, and ends as the last of them
    ended: stopped, or with the exception it raised. *)
Theorem MaxBatches_epoch_is_capped_prefix (max_batches_per_epoch : Z)
    f w bs e g' w' F :
  fuel_monotone inner →
  pull inner f (S (Z.to_nat max_batches_per_epoch)) (__iter__ inner) w
    = Some (bs, e, g', w') →
  f + Z.to_nat max_batches_per_epoch + 2 ≤ F →
  to_list (MaxBatchesDataLoader inner max_batches_per_epoch) F
    (__iter__ (MaxBatchesDataLoader inner max_batches_per_epoch)) w
    = Some (take (Z.to_nat max_batches_per_epoch) bs, e, w') ∧
  length (take (Z.to_nat max_batches_per_epoch) bs)
    ≤ Z.to_nat max_batches_per_epoch.
Proof.
  intros Hin Hpull HF.
  destruct (decide (0 ≤ max_batches_per_epoch)%Z) as [Hcap|Hcap].
  { by apply (MaxBatches_to_list inner max_batches_per_epoch f w bs e g' w' F). }
  split; [|rewrite length_take; lia].
  replace (Z.to_nat max_batches_per_epoch) with 0 in * by lia.
  destruct F as [|[|F]]; [lia|lia|].
  rewrite pull_S in Hpull. rewrite to_list_S.
  cbn [__iter__ __next__ MaxBatchesDataLoader MaxBatches_next].
  unfold MaxBatches_loop.
  assert (Hne : __next__ inner f (__iter__ inner) w ≠ OutOfFuel)
    by (intros Hfuel; by rewrite Hfuel in Hpull).
  rewrite (Hin f F _ w ltac:(lia) Hne).
  destruct (__next__ inner f (__iter__ inner) w) as [b g1 w1|g1 w1|e1 g1 w1|];
    [| | |done].
  - assert ((0 >=? max_batches_per_epoch)%Z = true) as -> by lia.
    cbn [pull] in Hpull. by injection Hpull as <- <- _ <-.
  - by injection Hpull as <- <- _ <-.
  - by injection Hpull as <- <- _ <-.
Qed.

(** X9: with a target that is 0 or negative, an epoch of the exact-count
    loader is empty and does not touch the cursor: the inner loader is
    not resumed, whatever it is. *)
Theorem BatchesPerEpoch_nonpositive_target (batches_per_epoch : Z) f w cur :
  (batches_per_epoch ≤ 0)%Z → 2 ≤ f →
  to_list (BatchesPerEpochDataLoader inner batches_per_epoch) f
    (__iter__ (BatchesPerEpochDataLoader inner batches_per_epoch)) (w, cur)
  = Some ([], None, (w, cur)).
Proof.
  intros HT Hf. destruct f as [|[|f]]; [lia|lia|].
  rewrite to_list_S.
  cbn [__iter__ __next__ BatchesPerEpochDataLoader BatchesPerEpoch_next
       BatchesPerEpoch_loop].
  by assert ((0 <? batches_per_epoch)%Z = false) as -> by lia.
Qed.

(** X10: over an inner loader whose epochs are all empty, an epoch of the
    exact-count loader with a positive target never yields and never ends:
    whatever the fuel, the loop is still restarting the inner loader when
    the fuel runs out.  [Empty] holds of the states in which the inner
    generator stops at once and leaves a world where a new one does
    too. *)
Theorem BatchesPerEpoch_diverges_over_empty (batches_per_epoch : Z)
    (Empty : Gen inner → W → Prop) :
  (0 < batches_per_epoch)%Z →
  (∀ g w n, Empty g w →
     match __next__ inner n g w with
     | StopIteration _ w' => Empty (__iter__ inner) w'
     | OutOfFuel => True
     | _ => False
     end) →
  ∀ fuel w cur, Empty cur w →
    __next__ (BatchesPerEpochDataLoader inner batches_per_epoch) fuel
      (__iter__ (BatchesPerEpochDataLoader inner batches_per_epoch)) (w, cur)
      = OutOfFuel ∧
    to_list (BatchesPerEpochDataLoader inner batches_per_epoch) fuel
      (__iter__ (BatchesPerEpochDataLoader inner batches_per_epoch)) (w, cur)
      = None.
Proof.
  intros HT Hempty.
  assert (Hloop : ∀ fuel w cur, Empty cur w →
            BatchesPerEpoch_loop inner batches_per_epoch fuel 0 (w, cur) = OutOfFuel).
  { induction fuel as [|fuel IH]; intros w cur Hcur; [done|].
    cbn [BatchesPerEpoch_loop fst snd].
    assert ((0 <? batches_per_epoch)%Z = true) as -> by lia.
    specialize (Hempty cur w fuel Hcur).
    destruct (__next__ inner fuel cur w) as [b g1 w1|g1 w1|e1 g1 w1|];
      [done| |done|done].
    by apply IH. }
  intros fuel w cur Hcur. split; [by apply Hloop|].
  destruct fuel as [|fuel]; [done|].
  rewrite to_list_S.
  cbn [__iter__ __next__ BatchesPerEpochDataLoader BatchesPerEpoch_next].
  by rewrite Hloop.
Qed.

(** X11: two generators of one exact-count loader share its cursor.  If
    both are below the target, resuming the one or the other from the same
    state gives the same batch and leaves the same cursor and world, so
    epochs that are interleaved split one inner sequence between them. *)
Theorem BatchesPerEpoch_generators_share_cursor (batches_per_epoch : Z)
    f g1 g2 y1 y2 w :
  resumes_at g1 y1 → resumes_at g2 y2 →
  (y1 < batches_per_epoch)%Z → (y2 < batches_per_epoch)%Z →
  match __next__ (BatchesPerEpochDataLoader inner batches_per_epoch) f g1 w,
        __next__ (BatchesPerEpochDataLoader inner batches_per_epoch) f g2 w with
  | Yield b1 g1' w1, Yield b2 g2' w2 =>
      b1 = b2 ∧ w1 = w2 ∧ g1' = BPE_Yielded y1 ∧ g2' = BPE_Yielded y2
  | Raised e1 _ w1, Raised e2 _ w2 => e1 = e2 ∧ w1 = w2
  | OutOfFuel, OutOfFuel => True
  | _, _ => False
  end.
Proof.
  intros Hg1 Hg2 Hy1 Hy2.
  rewrite (BatchesPerEpoch_next_resumes inner batches_per_epoch f g1 y1 w Hg1).
  rewrite (BatchesPerEpoch_next_resumes inner batches_per_epoch f g2 y2 w Hg2).
  revert w. induction f as [|f IH]; intros w; [done|].
  cbn [BatchesPerEpoch_loop].
  assert ((y1 <? batches_per_epoch)%Z = true) as -> by lia.
  assert ((y2 <? batches_per_epoch)%Z = true) as -> by lia.
  destruct (__next__ inner f w.2 w.1) as [b g' w'|g' w'|e g' w'|]; try done.
  apply IH.
Qed.
End WrapperEdges.

(** *** [SamplerDataLoader]: indices in and out of range *)

Section SamplerEpochs.
Context {Instance TensorDict G : Type}.
Context (allennlp_collate : list Instance → TensorDict).
Context (instances : loc) (batch_sampler : BatchSampler (Instance := Instance)).

Local Abbreviation SP :=
  (SamplerDataLoader (G := G) allennlp_collate instances batch_sampler).
Implicit Types (xs : list Instance) (w : World (Instance:=Instance) (G:=G)).

Lemma getitem_in_range xs i :
  (- Z.of_nat (length xs) ≤ i < Z.of_nat (length xs))%Z →
  ∃ x, getitem xs i = Ok x ∧
       xs !! Z.to_nat (i mod Z.of_nat (length xs)) = Some x.
Proof.
  intros Hi. unfold getitem.
  destruct (i <? 0)%Z eqn:Hneg.
  - assert ((i + Z.of_nat (length xs) <? 0)%Z = false) as -> by lia.
    assert (Hmod : (i mod Z.of_nat (length xs) = i + Z.of_nat (length xs))%Z).
    { symmetry. apply (Z.mod_unique_pos _ _ (-1)); lia. }
    rewrite Hmod.
    destruct (xs !! Z.to_nat (i + Z.of_nat (length xs))) as [x|] eqn:Hx;
      [by exists x|].
    apply lookup_ge_None in Hx. lia.
  - assert ((i <? 0)%Z = false) as -> by lia.
    rewrite Z.mod_small by lia.
    destruct (xs !! Z.to_nat i) as [x|] eqn:Hx; [by exists x|].
    apply lookup_ge_None in Hx. lia.
Qed.

Lemma getitem_raises xs i e : getitem xs i = Raise e → e = IndexError.
Proof.
  unfold getitem. destruct (_ <? 0)%Z; [by intros [= <-]|].
  destruct (xs !! _); [done|by intros [= <-]].
Qed.

Lemma getitem_out_of_range xs i :
  (i < - Z.of_nat (length xs) ∨ Z.of_nat (length xs) ≤ i)%Z →
  getitem xs i = Raise IndexError.
Proof.
  intros Hi. unfold getitem.
  destruct (i <? 0)%Z eqn:Hneg.
  - destruct (i + Z.of_nat (length xs) <? 0)%Z eqn:Hlow; [done|lia].
  - assert ((i <? 0)%Z = false) as -> by lia.
    rewrite (lookup_ge_None_2 xs (Z.to_nat i)) by lia. done.
Qed.

Lemma gather_raises xs idxs e : gather xs idxs = Raise e → e = IndexError.
Proof.
  induction idxs as [|i idxs IH]; [done|]. cbn [gather].
  destruct (getitem xs i) eqn:Hi; [|intros [= <-]; by eapply getitem_raises].
  destruct (gather xs idxs); [done|]. intros [= <-]. by apply IH.
Qed.

Lemma gather_in_range xs idxs :
  Forall (λ i, (- Z.of_nat (length xs) ≤ i < Z.of_nat (length xs))%Z) idxs →
  ∃ batch, gather xs idxs = Ok batch ∧
           Forall2 (λ i x, xs !! Z.to_nat (i mod Z.of_nat (length xs)) = Some x)
                   idxs batch.
Proof.
  induction 1 as [|i idxs Hi _ IH]; [by exists []|].
  destruct (getitem_in_range xs i Hi) as (x & Hx & Hlook).
  destruct IH as (batch & Hbatch & Hall).
  exists (x :: batch). cbn [gather]. rewrite Hx, Hbatch. split; [done|].
  by constructor.
Qed.

Lemma gather_out_of_range xs idxs :
  Exists (λ i, (i < - Z.of_nat (length xs) ∨ Z.of_nat (length xs) ≤ i)%Z) idxs →
  gather xs idxs = Raise IndexError.
Proof.
  induction 1 as [i idxs Hi|i idxs _ IH]; cbn [gather].
  - by rewrite getitem_out_of_range.
  - destruct (getitem xs i) as [x|e] eqn:Hx.
    + by rewrite IH.
    + by rewrite (getitem_raises _ _ _ Hx).
Qed.

Lemma gather_all_in_range xs (groups : list (list Z)) :
  Forall (Forall (λ i, (- Z.of_nat (length xs) ≤ i < Z.of_nat (length xs))%Z))
         groups →
  ∃ batches,
    Forall2 (λ idxs batch, gather xs idxs = Ok batch) groups batches ∧
    Forall2 (λ idxs batch,
               Forall2 (λ i x, xs !! Z.to_nat (i mod Z.of_nat (length xs)) = Some x)
                       idxs batch)
            groups batches.
Proof.
  induction 1 as [|idxs groups Hidxs _ IH]; [by exists []|].
  destruct (gather_in_range xs idxs Hidxs) as (batch & Hbatch & Hshape).
  destruct IH as (batches & H1 & H2).
  exists (batch :: batches). split; by constructor.
Qed.

(** Consuming a generator that has the index groups [good ++ rest] still to
    go, where the groups of [good] can be gathered. *)
Lemma Sampler_to_list_groups w good batches rest f :
  Forall2 (λ idxs batch, gather (heap w !!! instances) idxs = Ok batch)
          good batches →
  length good + 2 ≤ f →
  to_list SP f (SP_Groups (good ++ rest)) w
  = match to_list SP (f - length good) (SP_Groups rest) w with
    | Some (bs, e, w') => Some ((allennlp_collate <$> batches) ++ bs, e, w')
    | None => None
    end.
Proof.
  intros Hall. revert f.
  induction Hall as [|idxs batch good batches Hg _ IH]; intros f Hf.
  { cbn [length app fmap list_fmap]. rewrite Nat.sub_0_r.
    by destruct (to_list _ _ _ _) as [[[??]?]|]. }
  destruct f as [|[|f]]; [simpl in Hf; lia|simpl in Hf; lia|].
  rewrite to_list_S.
  cbn [app __next__ SamplerDataLoader Sampler_next Sampler_loop].
  rewrite Hg, IH by (simpl in Hf; lia).
  replace (S (S f) - length (idxs :: good)) with (S f - length good)
    by (simpl; lia).
  by destruct (to_list _ _ _ _) as [[[??]?]|].
Qed.

Lemma Sampler_to_list_start f w :
  to_list SP f (__iter__ SP) w
  = to_list SP f
      (SP_Groups (get_batch_indices batch_sampler (heap w !!! instances))) w.
Proof. destruct f as [|[|f]]; done. Qed.

(** X12: when every index that the sampler gives is in range, negative
    indices counting from the end, an epoch collates one batch for each
    index group, in the sampler's order, made of the instances at the
    indices of the group in their order: an index may come twice, an
    instance may be left out, a group may be empty.  The world is left as
    it was. *)
Theorem Sampler_epoch_gathers w l f :
  heap w !! instances = Some l →
  Forall (Forall (λ i, (- Z.of_nat (length l) ≤ i < Z.of_nat (length l))%Z))
         (get_batch_indices batch_sampler l) →
  length (get_batch_indices batch_sampler l) + 2 ≤ f →
  ∃ batches,
    to_list SP f (__iter__ SP) w = Some (allennlp_collate <$> batches, None, w) ∧
    Forall2 (λ idxs batch,
               Forall2 (λ i x, l !! Z.to_nat (i mod Z.of_nat (length l)) = Some x)
                       idxs batch)
            (get_batch_indices batch_sampler l) batches.
Proof.
  intros Hl Hall Hf. pose proof (lookup_total_correct _ _ _ Hl) as Hl'.
  destruct (gather_all_in_range l _ Hall) as (batches & Hok & Hshape).
  exists batches. split; [|done].
  rewrite Sampler_to_list_start, Hl'.
  rewrite <- (app_nil_r (get_batch_indices batch_sampler l)).
  rewrite (Sampler_to_list_groups w _ batches []) by (by rewrite ?Hl').
  destruct (f - length (get_batch_indices batch_sampler l)) as [|[|k]] eqn:Hk;
    [lia|lia|].
  rewrite to_list_S. cbn [__next__ SamplerDataLoader Sampler_next Sampler_loop].
  by rewrite app_nil_r.
Qed.

End SamplerEpochs.

(** *** The exact-count loader over an unshuffled fixed-size chunking *)

Lemma succ_mod (c m : nat) :
  0 < m →
  S c mod m = if decide (S (c mod m) < m) then S (c mod m) else 0.
Proof.
  intros Hm.
  pose proof (Nat.div_mod_eq c m) as Hc.
  pose proof (Nat.mod_upper_bound c m ltac:(lia)) as Hr.
  case_decide as Hlt.
  - symmetry. apply (Nat.mod_unique _ _ (c / m)); lia.
  - symmetry. apply (Nat.mod_unique _ _ (S (c / m))); lia.
Qed.

Lemma cycle_lookup {A} (E : list A) k : ∀ c i,
  E ≠ [] → i < k → cycle E c k !! i = E !! ((c + i) mod length E).
Proof.
  induction k as [|k IH]; intros c i HE Hi; [lia|].
  cbn [cycle].
  assert (Hlt : c mod length E < length E).
  { apply Nat.mod_upper_bound. destruct E; [done|simpl; lia]. }
  destruct (lookup_lt_is_Some_2 E _ Hlt) as [x Hx]. rewrite Hx.
  destruct i as [|i]; [by rewrite Nat.add_0_r|].
  cbn [lookup list_lookup]. rewrite IH by (done || lia).
  by replace (S c + i) with (c + S i) by lia.
Qed.

Section ExactCountOverBatchSize.
Context {Instance TensorDict G : Type}.
Context (allennlp_collate : list Instance → TensorDict).
Context (getrand : G → nat * G).
Context (instances : loc) (batch_size : Z) (drop_last : bool).
Context (batches_per_epoch : Z).
Context (Hpos : (0 < batch_size)%Z).
Context (w : World (Instance:=Instance) (G:=G)) (l : list Instance).
Context (Hl : heap w !! instances = Some l).
Context (Hgs : BatchSize_groups batch_size drop_last l ≠ []).

Local Abbreviation BS :=
  (BatchSizeDataLoader allennlp_collate getrand instances batch_size drop_last false).
Local Abbreviation BPE := (BatchesPerEpochDataLoader BS batches_per_epoch).
Local Abbreviation gs := (BatchSize_groups batch_size drop_last l).
Local Abbreviation E := (allennlp_collate <$> BatchSize_groups batch_size drop_last l).
Local Abbreviation cursor := (BatchSize_cursor_after instances gs).

Lemma BatchesPerEpoch_loop_S {W} (inner : TangoDataLoader TensorDict W) T f y
    (s : W * Gen inner) :
  BatchesPerEpoch_loop inner T (S f) y s =
    if (y <? T)%Z then
      match __next__ inner f s.2 s.1 with
      | Yield b it w' => Yield b (BPE_Yielded y) (w', it)
      | StopIteration _ w' => BatchesPerEpoch_loop inner T f y (w', __iter__ inner)
      | Raised e it w' => Raised e BPE_Finished (w', it)
      | OutOfFuel => OutOfFuel
      end
    else StopIteration BPE_Finished s.
Proof. done. Qed.

(** A new inner generator yields the first group. *)
Lemma BatchSize_unshuffled_first f :
  2 ≤ f →
  ∃ b, E !! 0 = Some b ∧
       __next__ BS f BS_NotStarted w
       = Yield b (BS_Chunking instances (length (concat (take 1 gs)))) w.
Proof.
  intros Hf. pose proof (lookup_total_correct _ _ _ Hl) as Hl'.
  rewrite BatchSize_next_start.
  unfold BatchSize_epoch_list, BatchSize_epoch_world.
  rewrite BatchSize_loop_spec by done. rewrite drop_0, Hl'.
  destruct gs as [|g0 gs'] eqn:Hg; [done|].
  exists (allennlp_collate g0). split; [done|].
  cbn [take concat]. by rewrite app_nil_r.
Qed.

(** One turn of the exact-count loop after [c] batches in all: it yields
    the batch at position [c] of the repeated epoch. *)
Lemma BatchesPerEpoch_loop_cycle f y c :
  (y < batches_per_epoch)%Z → 4 ≤ f →
  ∃ b, E !! (c mod length E) = Some b ∧
       BatchesPerEpoch_loop BS batches_per_epoch f y (w, cursor c)
       = Yield b (BPE_Yielded y) (w, cursor (S c)).
Proof.
  intros Hy Hf. pose proof (lookup_total_correct _ _ _ Hl) as Hl'.
  assert (Hm : 0 < length gs) by (destruct gs; [done|simpl; lia]).
  destruct f as [|f]; [lia|].
  rewrite BatchesPerEpoch_loop_S. cbn [fst snd].
  assert ((y <? batches_per_epoch)%Z = true) as -> by lia.
  rewrite length_fmap.
  destruct c as [|c].
  { destruct (BatchSize_unshuffled_first f ltac:(lia)) as (b & Hb & Hnext).
    cbn [BatchSize_cursor_after]. rewrite Nat.Div0.mod_0_l, Hnext. by exists b. }
  cbn [BatchSize_cursor_after].
  cbn [__next__ BatchSizeDataLoader BatchSize_next].
  rewrite BatchSize_loop_spec by (done || lia).
  pose proof (Nat.mod_upper_bound c (length gs) ltac:(lia)) as Hr.
  rewrite Hl'.
  rewrite (BatchSize_groups_drop allennlp_collate batch_size drop_last Hpos
             (S (c mod length gs)) l) by lia.
  rewrite (succ_mod c (length gs) Hm).
  case_decide as Hlt.
  - destruct (lookup_lt_is_Some_2 gs _ Hlt) as [g Hg].
    rewrite (drop_S gs g _ Hg).
    exists (allennlp_collate g). split; [by rewrite list_lookup_fmap, Hg|].
    do 3 f_equal.
    rewrite (take_S_r gs _ g Hg), concat_app, length_app. simpl.
    by rewrite app_nil_r.
  - rewrite drop_ge by lia.
    destruct f as [|f]; [lia|].
    destruct (BatchSize_unshuffled_first f ltac:(lia)) as (b & Hb & Hnext).
    rewrite BatchesPerEpoch_loop_S. cbn [fst snd __iter__ BatchSizeDataLoader].
    assert ((y <? batches_per_epoch)%Z = true) as -> by lia.
    rewrite Hnext. by exists b.
Qed.

(** Consuming a generator of the exact-count loader that has [k] batches
    to go. *)
Lemma BatchesPerEpoch_to_list_cycle k : ∀ g y c f,
  resumes_at g y → Z.to_nat (batches_per_epoch - y) = k → k + 5 ≤ f →
  to_list BPE f g (w, cursor c) = Some (cycle E c k, None, (w, cursor (c + k))).
Proof.
  induction k as [|k IH]; intros g y c f Hg Hk Hf.
  - destruct f as [|[|f]]; [lia|lia|].
    rewrite to_list_S, (BatchesPerEpoch_next_resumes _ _ _ g y) by done.
    cbn [BatchesPerEpoch_loop].
    assert ((y <? batches_per_epoch)%Z = false) as -> by lia.
    by rewrite Nat.add_0_r.
  - destruct f as [|f]; [lia|].
    rewrite to_list_S, (BatchesPerEpoch_next_resumes _ _ _ g y) by done.
    destruct (BatchesPerEpoch_loop_cycle f y c ltac:(lia) ltac:(lia))
      as (b & Hb & Hloop).
    rewrite Hloop.
    rewrite (IH (BPE_Yielded y) (y + 1)%Z (S c) f); [|right; f_equal; lia|lia|lia].
    cbn [cycle]. rewrite Hb. by replace (S c + k) with (c + S k) by lia.
Qed.

End ExactCountOverBatchSize.

(** *** The capped loader over the exact-count loader *)

Lemma take_cycle {A} (E : list A) k : ∀ a c,
  take a (cycle E c k) = cycle E c (a `min` k).
Proof.
  induction k as [|k IH]; intros a c.
  { rewrite Nat.min_0_r. cbn [cycle]. by rewrite take_nil. }
  destruct a as [|a]; [done|].
  cbn [Nat.min cycle]. destruct (E !! (c mod length E)); [|done].
  cbn [take]. by rewrite IH.
Qed.

Section CappedOverExactCount.
Context {Instance TensorDict G : Type}.
Context (allennlp_collate : list Instance → TensorDict).
Context (getrand : G → nat * G).
Context (instances : loc) (batch_size : Z) (drop_last : bool).
Context (batches_per_epoch max_batches_per_epoch : Z).
Context (Hpos : (0 < batch_size)%Z).
Context (Hcap : (0 ≤ max_batches_per_epoch)%Z).
Context (w : World (Instance:=Instance) (G:=G)) (l : list Instance).
Context (Hl : heap w !! instances = Some l).
Context (Hgs : BatchSize_groups batch_size drop_last l ≠ []).

Local Abbreviation BS :=
  (BatchSizeDataLoader allennlp_collate getrand instances batch_size drop_last false).
Local Abbreviation BPE := (BatchesPerEpochDataLoader BS batches_per_epoch).
Local Abbreviation MB := (MaxBatchesDataLoader BPE max_batches_per_epoch).
Local Abbreviation gs := (BatchSize_groups batch_size drop_last l).
Local Abbreviation E := (allennlp_collate <$> BatchSize_groups batch_size drop_last l).
Local Abbreviation cursor := (BatchSize_cursor_after instances gs).
Local Abbreviation T := (Z.to_nat batches_per_epoch).
Local Abbreviation cap := (Z.to_nat max_batches_per_epoch).

(** Resuming a generator of the exact-count loader [k] times. *)
Lemma BatchesPerEpoch_pull_cycle k : ∀ g y c f,
  resumes_at g y → 4 ≤ f →
  ∃ g', pull BPE f k g (w, cursor c)
        = Some (cycle E c (k `min` Z.to_nat (batches_per_epoch - y)), None, g',
                (w, cursor (c + k `min` Z.to_nat (batches_per_epoch - y)))).
Proof.
  induction k as [|k IH]; intros g y c f Hg Hf.
  { exists g. cbn [pull Nat.min cycle]. by rewrite Nat.add_0_r. }
  rewrite pull_S, (BatchesPerEpoch_next_resumes _ _ _ g y) by done.
  destruct (decide (y < batches_per_epoch)%Z) as [Hy|Hy].
  - destruct (BatchesPerEpoch_loop_cycle allennlp_collate getrand instances
                batch_size drop_last batches_per_epoch Hpos w l Hl Hgs f y c Hy Hf)
      as (b & Hb & Hloop).
    rewrite Hloop.
    destruct (IH (BPE_Yielded y) (y + 1)%Z (S c) f) as [g' Hrec];
      [right; f_equal; lia|done|].
    exists g'. rewrite Hrec.
    replace (Z.to_nat (batches_per_epoch - y))
      with (S (Z.to_nat (batches_per_epoch - (y + 1)))) by lia.
    cbn [Nat.min cycle]. rewrite Hb.
    by replace (S c + k `min` Z.to_nat (batches_per_epoch - (y + 1)))
      with (c + S (k `min` Z.to_nat (batches_per_epoch - (y + 1)))) by lia.
  - destruct f as [|f]; [lia|]. rewrite BatchesPerEpoch_loop_S.
    assert ((y <? batches_per_epoch)%Z = false) as -> by lia.
    exists BPE_Finished.
    replace (Z.to_nat (batches_per_epoch - y)) with 0 by lia.
    rewrite Nat.min_0_r. cbn [cycle]. by rewrite Nat.add_0_r.
Qed.

(** One epoch of the capped loader, from the cursor after [c] batches. *)
Lemma MaxBatches_over_BatchesPerEpoch_epoch c F :
  cap + 6 ≤ F →
  to_list MB F (__iter__ MB) (w, cursor c)
  = Some (cycle E c (cap `min` T), None, (w, cursor (c + S cap `min` T))).
Proof.
  intros HF.
  destruct (BatchesPerEpoch_pull_cycle (S cap) BPE_NotStarted 0%Z c 4)
    as [g' Hpull]; [by left|lia|].
  rewrite Z.sub_0_r in Hpull.
  destruct (MaxBatches_to_list BPE max_batches_per_epoch 4 _ _ _ _ _ F
              (BatchesPerEpoch_fuel_monotone _ _ (BatchSize_fuel_monotone _ _ _ _ _ _))
              Hcap Hpull ltac:(lia)) as [Hrun _].
  rewrite Hrun, take_cycle.
  by replace (cap `min` (S cap `min` T)) with (cap `min` T) by lia.
Qed.

End CappedOverExactCount.

(** A fixed-size chunking of no instances stops at once. *)
Lemma BatchSize_no_instances {Instance TensorDict G : Type}
    (allennlp_collate : list Instance → TensorDict) (getrand : G → nat * G)
    instances batch_size drop_last shuffle (w : World) f :
  (0 ≤ batch_size)%Z → heap w !! instances = Some [] →
  match __next__ (BatchSizeDataLoader allennlp_collate getrand instances batch_size
                    drop_last shuffle) f BS_NotStarted w with
  | StopIteration _ w' => heap w' !! instances = Some []
  | OutOfFuel => True
  | _ => False
  end.
Proof.
  intros Hbs Hl. rewrite BatchSize_next_start.
  destruct f as [|f]; [done|]. cbn [BatchSize_loop].
  assert ((batch_size <? 0)%Z = false) as -> by lia.
  rewrite drop_0, BatchSize_epoch_list_order.
  assert (Hnil : BatchSize_epoch_order getrand instances shuffle w = []).
  { apply Permutation_nil_r. rewrite BatchSize_epoch_order_Permutation.
    by rewrite (lookup_total_correct _ _ _ Hl). }
  rewrite Hnil, take_nil.
  rewrite BatchSize_epoch_world_heap; [done|by rewrite Hl].
Qed.

(** ** The further properties at concrete inputs *)




Lemma BatchSize_zero_batch_size_witness :
  num_batches_per_epoch (ex_BatchSize 0 false true) (ex_world [1; 2; 3])
    = Raise ZeroDivisionError ∧
  to_list (ex_BatchSize 0 false true) 2 BS_NotStarted (ex_world [1; 2; 3])
    = Some ([], None, BatchSize_epoch_world lcg 0 true (ex_world [1; 2; 3])).
Proof.
  apply (BatchSize_zero_batch_size (λ batch : list nat, batch) lcg 0 0 false true
           (ex_world [1; 2; 3]) 2); [reflexivity|lia].
Defined.

Lemma BatchSize_negative_batch_size_witness :
  (∃ r, num_batches_per_epoch (ex_BatchSize (-2) false true) (ex_world [1; 2; 3])
        = Ok (Some r) ∧ (r ≤ 0)%Z) ∧
  to_list (ex_BatchSize (-2) false true) 2 BS_NotStarted (ex_world [1; 2; 3])
    = Some ([], Some ValueError,
            BatchSize_epoch_world lcg 0 true (ex_world [1; 2; 3])).
Proof.
  apply (BatchSize_negative_batch_size (λ batch : list nat, batch) lcg 0 (-2)
           false true (ex_world [1; 2; 3]) [1; 2; 3] 2); [lia|reflexivity|lia].
Defined.


Lemma MaxBatches_epoch_is_capped_prefix_witness :
  to_list (MaxBatchesDataLoader (ex_BatchSize 1 false false) 2) 6 MB_NotStarted
    (ex_world [1; 2; 3; 4])
    = Some (take 2 [[1]; [2]; [3]], None, ex_world [1; 2; 3; 4]) ∧
  length (take 2 [[1]; [2]; [3]]) ≤ 2.
Proof.
  eapply (MaxBatches_epoch_is_capped_prefix (ex_BatchSize 1 false false) 2 2
            (ex_world [1; 2; 3; 4]) [[1]; [2]; [3]] None _ (ex_world [1; 2; 3; 4]) 6).
  - apply BatchSize_fuel_monotone.
  - vm_compute. reflexivity.
  - simpl. lia.
Defined.


Lemma BatchesPerEpoch_nonpositive_target_witness :
  to_list (BatchesPerEpochDataLoader (ex_BatchSize 1 false false) 0) 2
    BPE_NotStarted (ex_world [1; 2; 3], BS_NotStarted)
  = Some ([], None, (ex_world [1; 2; 3], BS_NotStarted)).
Proof.
  apply (BatchesPerEpoch_nonpositive_target (ex_BatchSize 1 false false) 0 2
           (ex_world [1; 2; 3]) BS_NotStarted); lia.
Defined.

Lemma BatchesPerEpoch_diverges_over_empty_witness :
  __next__ (BatchesPerEpochDataLoader (ex_BatchSize 1 false false) 3) 1000
    BPE_NotStarted (ex_world [], BS_NotStarted) = OutOfFuel ∧
  to_list (BatchesPerEpochDataLoader (ex_BatchSize 1 false false) 3) 1000
    BPE_NotStarted (ex_world [], BS_NotStarted) = None.
Proof.
  apply (BatchesPerEpoch_diverges_over_empty (ex_BatchSize 1 false false) 3
           (λ g w, g = BS_NotStarted ∧ heap w !! 0 = Some [])).
  - lia.
  - intros g w n [-> Hw].
    pose proof (BatchSize_no_instances (λ batch : list nat, batch) lcg 0 1 false
                  false w n ltac:(lia) Hw) as Hstop.
    unfold ex_BatchSize.
    destruct (__next__ (BatchSizeDataLoader _ lcg 0 1 false false) n BS_NotStarted w);
      [exact Hstop|split; [reflexivity|exact Hstop]|exact Hstop|exact I].
  - split; reflexivity.
Defined.

Lemma BatchesPerEpoch_generators_share_cursor_witness :
  match __next__ (BatchesPerEpochDataLoader (ex_BatchSize 1 false false) 5) 4
          BPE_NotStarted (ex_world [1; 2; 3], BS_NotStarted),
        __next__ (BatchesPerEpochDataLoader (ex_BatchSize 1 false false) 5) 4
          (BPE_Yielded 2) (ex_world [1; 2; 3], BS_NotStarted) with
  | Yield b1 g1' w1, Yield b2 g2' w2 =>
      b1 = b2 ∧ w1 = w2 ∧ g1' = BPE_Yielded 0 ∧ g2' = BPE_Yielded 3
  | Raised e1 _ w1, Raised e2 _ w2 => e1 = e2 ∧ w1 = w2
  | OutOfFuel, OutOfFuel => True
  | _, _ => False
  end.
Proof.
  apply (BatchesPerEpoch_generators_share_cursor (ex_BatchSize 1 false false) 5 4
           BPE_NotStarted (BPE_Yielded 2) 0 3 (ex_world [1; 2; 3], BS_NotStarted));
    [left; split; reflexivity|right; reflexivity|lia|lia].
Defined.

Lemma Sampler_epoch_gathers_witness :
  ∃ batches,
    to_list (SamplerDataLoader (G := nat) (λ batch : list nat, batch) 0 ex_sampler) 5
      SP_NotStarted (ex_world [10; 20; 30])
      = Some ((λ batch : list nat, batch) <$> batches, None, ex_world [10; 20; 30]) ∧
    Forall2 (λ idxs batch,
               Forall2 (λ i x, [10; 20; 30] !! Z.to_nat (i mod 3) = Some x) idxs batch)
            [[0; -1]; []; [1; 1]]%Z batches.
Proof.
  apply (Sampler_epoch_gathers (λ batch : list nat, batch) 0 ex_sampler
           (ex_world [10; 20; 30]) [10; 20; 30] 5).
  - reflexivity.
  - repeat constructor; simpl; lia.
  - simpl. lia.
Defined.



